(** * The commit review hook: a shallow embedding and its verification

    The development follows the hook script of the repository
    (the file whose functions are [getAIConfig], [callWithRetry],
    [patternToRegex], [shouldIgnoreFile], [filterDiff] and [runAIReview]).

    Conventions of the embedding.
    - A JavaScript string is a [string]: one [ascii] per UTF-16 code unit,
      which covers the code units below 256.  In that range the line
      terminators are LF and CR, and the white space of [trim] is
      TAB, LF, VT, FF, CR, SPACE and NBSP.
    - A JavaScript number that the script only uses as an integer is a [Z].
    - [undefined] is [None] of an [option].
    - Debug output ([logVerbose], [logTime]) is left out; every other line
      written to the console is an event of the run. *)

From Stdlib Require Import ZArith List String Ascii Bool Lia.
From stdpp Require Import gmap strings.
Import ListNotations.
Open Scope string_scope.
Open Scope list_scope.

(** ** The string methods the script calls *)

Module Js.

Definition LF : ascii := "010"%char.
Definition CR : ascii := "013"%char.

Definition isLineTerminator (c : ascii) : bool :=
  Ascii.eqb c LF || Ascii.eqb c CR.

Definition isWhiteSpace (c : ascii) : bool :=
  let n := nat_of_ascii c in
  (9 <=? n)%nat && (n <=? 13)%nat || (n =? 32)%nat || (n =? 160)%nat.

(** [s.startsWith(p)] and [s.endsWith(p)]. *)
Definition startsWith (s p : string) : bool := String.prefix p s.

Definition endsWith (s p : string) : bool :=
  let n := String.length s in
  let k := String.length p in
  (k <=? n)%nat && String.eqb (substring (n - k) k s) p.

(** [s.slice(b, e)]: a negative index counts from the end, both indices are
    clamped to the string, and an absent [e] is the length. *)
Definition sliceIndex (len i : Z) : Z :=
  if (i <? 0)%Z then Z.max (len + i) 0 else Z.min i len.

Definition slice (s : string) (b : Z) (e : option Z) : string :=
  let len := Z.of_nat (String.length s) in
  let from := sliceIndex len b in
  let to := match e with Some e' => sliceIndex len e' | None => len end in
  substring (Z.to_nat from) (Z.to_nat (to - from)) s.

(** [s.toLowerCase()] on code units below 256: A-Z and the accented capitals
    U+00C0..U+00DE (but the multiplication sign U+00D7) move up by 32. *)
Definition lowerChar (c : ascii) : ascii :=
  let n := nat_of_ascii c in
  if (65 <=? n)%nat && (n <=? 90)%nat
     || (192 <=? n)%nat && (n <=? 222)%nat && negb (n =? 215)%nat
  then ascii_of_nat (n + 32) else c.

Fixpoint toLowerCase (s : string) : string :=
  match s with
  | EmptyString => EmptyString
  | String c r => String (lowerChar c) (toLowerCase r)
  end.

(** [s.trim()]. *)
Fixpoint trimStart (s : string) : string :=
  match s with
  | EmptyString => EmptyString
  | String c r => if isWhiteSpace c then trimStart r else s
  end.

Fixpoint trimEnd (s : string) : string :=
  match s with
  | EmptyString => EmptyString
  | String c r =>
      let r' := trimEnd r in
      if String.eqb r' "" && isWhiteSpace c then "" else String c r'
  end.

Definition trim (s : string) : string := trimEnd (trimStart s).

(** [s.split("\n")] and [lines.join("\n")]. *)
Fixpoint splitLines (s : string) : list string :=
  match s with
  | EmptyString => [""]
  | String c r =>
      if Ascii.eqb c LF then "" :: splitLines r
      else match splitLines r with
           | h :: t => String c h :: t
           | [] => [String c ""]
           end
  end.

Fixpoint joinLines (l : list string) : string :=
  match l with
  | [] => ""
  | [x] => x
  | x :: t => x +:+ String LF (joinLines t)
  end.

(** [s.replace(/needle/g, repl)] for a regular expression that matches the
    fixed text [needle] only: occurrences are replaced from left to right and
    do not overlap.  [skip] counts the code units of an occurrence that are
    still to be passed over. *)
Fixpoint replaceFrom (needle repl : string) (skip : nat) (s : string) : string :=
  match s with
  | EmptyString => EmptyString
  | String c r =>
      match skip with
      | S k => replaceFrom needle repl k r
      | O =>
          if String.prefix needle s
          then repl +:+ replaceFrom needle repl (String.length needle - 1) r
          else String c (replaceFrom needle repl 0 r)
      end
  end.

Definition replaceAll (needle repl s : string) : string :=
  replaceFrom needle repl 0 s.

(** The truth value of a string that may be [undefined]. *)
Definition truthy (o : option string) : bool :=
  match o with
  | Some s => negb (String.eqb s "")
  | None => false
  end.

(** [a || b] on such values. *)
Definition or (a b : option string) : option string :=
  if truthy a then a else b.

End Js.

(** ** Values a JavaScript computation can throw *)

(** The fields of an error object that the script reads. *)
Record JsError := {
  err_code : option string;
  err_status : option Z;
  err_message : string
}.

Inductive Thrown :=
| ThrownUndefined
| ThrownError (e : JsError).

Definition plainError (msg : string) : JsError :=
  {| err_code := None; err_status := None; err_message := msg |}.

(** Reading a property of [undefined]. *)
Definition typeError : JsError :=
  plainError "Cannot read properties of undefined".

(** [new RegExp(src)] on a malformed source. *)
Definition syntaxError : JsError :=
  plainError "Invalid regular expression".

(** A computation without side effects: it returns, throws, or leaves the
    part of the language that is modelled (see [RegExp] below). *)
Inductive Res (A : Type) :=
| Val (a : A)
| Raise (t : Thrown)
| Beyond.
Arguments Val {A} a.
Arguments Raise {A} t.
Arguments Beyond {A}.

#[global] Instance Res_ret : MRet Res := fun A a => Val a.

#[global] Instance Res_bind : MBind Res := fun A B f m =>
  match m with
  | Val a => f a
  | Raise t => Raise t
  | Beyond => Beyond
  end.

(** ** Regular expressions *)

(** The regular expressions that [patternToRegex] builds use literals,
    [.], the class [[^/]], the assertions [^] and [$], concatenation,
    alternation, groups and [*]. *)
Inductive Re :=
| REps
| RChar (c : ascii)
| RAny
| RNotSlash
| RBol
| REol
| RCat (a b : Re)
| RAlt (a b : Re)
| RStar (a : Re).

Module RegExp.

(** *** Reading the source text *)

(** The characters with a meaning of their own in a pattern. *)
Definition syntaxChars : string := "^$\.*+?()[]{}|".

Fixpoint mem (c : ascii) (s : string) : bool :=
  match s with
  | EmptyString => false
  | String d r => Ascii.eqb c d || mem c r
  end.

(** What the last term of an alternative is: an atom takes a quantifier,
    an assertion and a quantified atom do not. *)
Inductive Kind := KAtom | KAssertion | KQuantified.

(** An open disjunction: the alternatives that are complete, and the terms
    of the one being read, both latest first. *)
Record Frame := {
  done_alts : list Re;
  terms : list (Re * Kind)
}.

Definition emptyFrame : Frame := {| done_alts := []; terms := [] |}.

Definition seqOf (ts : list (Re * Kind)) : Re :=
  fold_left (fun acc t => match acc with REps => fst t | _ => RCat (fst t) acc end)
            ts REps.

Definition closeFrame (f : Frame) : Re :=
  fold_left (fun acc a => RAlt a acc) (done_alts f) (seqOf (terms f)).

Definition pushTerm (f : Frame) (r : Re) (k : Kind) : Frame :=
  {| done_alts := done_alts f; terms := (r, k) :: terms f |}.

Inductive Compiled :=
| Regex (r : Re)
| SyntaxError
| OutsideFragment.

(** The parser reads the source from left to right.  [top] is the innermost
    open disjunction and [stack] the ones around it.  It answers
    - [SyntaxError] where the constructor throws: a [*] with nothing to
      repeat, a [)] without its [(], a [(] never closed, a [\] at the end;
    - [OutsideFragment] on a construct that the type [Re] does not cover
      (a bare [+ ? { } ]], a class other than [[^/]], an escape other than
      that of a syntax character or of [/]);
    - the expression otherwise. *)
Fixpoint parse (s : string) (stack : list Frame) (top : Frame) {struct s} : Compiled :=
  match s with
  | EmptyString =>
      match stack with
      | [] => Regex (closeFrame top)
      | _ :: _ => SyntaxError
      end
  | String c rest =>
      if Ascii.eqb c "(" then parse rest (top :: stack) emptyFrame
      else if Ascii.eqb c ")" then
        match stack with
        | [] => SyntaxError
        | outer :: stack' => parse rest stack' (pushTerm outer (closeFrame top) KAtom)
        end
      else if Ascii.eqb c "|" then
        parse rest stack
              {| done_alts := seqOf (terms top) :: done_alts top; terms := [] |}
      else if Ascii.eqb c "*" then
        match terms top with
        | (r, KAtom) :: ts =>
            parse rest stack
                  {| done_alts := done_alts top; terms := (RStar r, KQuantified) :: ts |}
        | _ => SyntaxError
        end
      else if Ascii.eqb c "^" then parse rest stack (pushTerm top RBol KAssertion)
      else if Ascii.eqb c "$" then parse rest stack (pushTerm top REol KAssertion)
      else if Ascii.eqb c "." then parse rest stack (pushTerm top RAny KAtom)
      else if Ascii.eqb c "\" then
        match rest with
        | EmptyString => SyntaxError
        | String d rest' =>
            if mem d syntaxChars || Ascii.eqb d "/"
            then parse rest' stack (pushTerm top (RChar d) KAtom)
            else OutsideFragment
        end
      else if Ascii.eqb c "[" then
        match rest with
        | String c1 (String c2 (String c3 rest')) =>
            if Ascii.eqb c1 "^" && Ascii.eqb c2 "/" && Ascii.eqb c3 "]"
            then parse rest' stack (pushTerm top RNotSlash KAtom)
            else OutsideFragment
        | _ => OutsideFragment
        end
      else if mem c syntaxChars then OutsideFragment
      else parse rest stack (pushTerm top (RChar c) KAtom)
  end.

Definition compile (src : string) : Compiled := parse src [] emptyFrame.

(** *** Matching *)

(** A position in the subject: how many code units lie before it, and the
    code units after it. *)
Definition Pos : Type := nat * string.

(** [ends r p] lists the positions at which a match of [r] that starts at
    [p] can end.  An iteration of [*] that consumes nothing adds no end
    position, so [*] only follows iterations that advance. *)
Fixpoint ends (r : Re) (p : Pos) : list Pos :=
  match r with
  | REps => [p]
  | RChar c =>
      match snd p with
      | String d t => if Ascii.eqb c d then [(S (fst p), t)] else []
      | EmptyString => []
      end
  | RAny =>
      match snd p with
      | String d t => if Js.isLineTerminator d then [] else [(S (fst p), t)]
      | EmptyString => []
      end
  | RNotSlash =>
      match snd p with
      | String d t => if Ascii.eqb d "/" then [] else [(S (fst p), t)]
      | EmptyString => []
      end
  | RBol => if (fst p =? 0)%nat then [p] else []
  | REol => match snd p with EmptyString => [p] | String _ _ => [] end
  | RCat a b => flat_map (ends b) (ends a p)
  | RAlt a b => ends a p ++ ends b p
  | RStar a =>
      (fix iter (n : nat) (q : Pos) {struct n} : list Pos :=
         match n with
         | O => [q]
         | S n' =>
             q :: flat_map (fun q' => if (fst q <? fst q')%nat then iter n' q' else [])
                           (ends a q)
         end) (String.length (snd p)) p
  end.

(** The suffixes of the subject with their offsets: where a match may start. *)
Fixpoint starts (i : nat) (s : string) : list Pos :=
  (i, s) :: match s with
            | EmptyString => []
            | String _ t => starts (S i) t
            end.

(** [regex.test(subject)] for a regular expression without flags. *)
Definition test (r : Re) (subject : string) : bool :=
  existsb (fun p => match ends r p with [] => false | _ :: _ => true end)
          (starts 0 subject).

End RegExp.

(** [new RegExp(src)]: the constructor throws a [SyntaxError] on a malformed
    source. *)
Definition newRegExp (src : string) : Res Re :=
  match RegExp.compile src with
  | RegExp.Regex r => Val r
  | RegExp.SyntaxError => Raise (ThrownError syntaxError)
  | RegExp.OutsideFragment => Beyond
  end.

(** ** The path pattern matcher *)

Record Rule := {
  regex : Re;
  negated : bool
}.

(** The first [replace] of [patternToRegex]: a backslash goes before each of
    [. + ^ $ { } ( ) | [ ] \]. *)
Definition escapedChars : string := ".+^${}()|[]\".

Fixpoint escapeSpecials (s : string) : string :=
  match s with
  | EmptyString => EmptyString
  | String c r =>
      if RegExp.mem c escapedChars
      then String "\" (String c (escapeSpecials r))
      else String c (escapeSpecials r)
  end.

(** The source text of the regular expression of a pattern that does not
    begin with [!]. *)
Definition regexSource (pattern : string) : string :=
  let regexStr :=
    Js.replaceAll "{{DOUBLE_STAR}}" ".*"
      (Js.replaceAll "?" "[^/]"
        (Js.replaceAll "*" "[^/]*"
          (Js.replaceAll "**" "{{DOUBLE_STAR}}"
            (escapeSpecials pattern)))) in
  let regexStr :=
    if Js.startsWith pattern "/"
    then "^" +:+ Js.slice regexStr 2 None
    else "(^|/)" +:+ regexStr in
  if Js.endsWith pattern "/"
  then Js.slice regexStr 0 (Some (-2)%Z) +:+ "(/|$)"
  else regexStr +:+ "($|/)".

Fixpoint patternToRegex (pattern : string) : Res Rule :=
  match pattern with
  | String "!" rest =>
      r ← patternToRegex rest;
      Val {| regex := regex r; negated := true |}
  | _ =>
      r ← newRegExp (regexSource pattern);
      Val {| regex := r; negated := false |}
  end.

(** [shouldIgnoreFile]: every pattern is compiled and tried in turn, and
    each one that matches overwrites [ignored]. *)
Fixpoint ignoreLoop (filePath : string) (patterns : list string) (ignored : bool) : Res bool :=
  match patterns with
  | [] => Val ignored
  | pattern :: rest =>
      r ← patternToRegex pattern;
      ignoreLoop filePath rest
                 (if RegExp.test (regex r) filePath then negb (negated r) else ignored)
  end.

Definition shouldIgnoreFile (filePath : string) (patterns : list string) : Res bool :=
  ignoreLoop filePath patterns false.

(** ** The changeset filter *)

(** [line.match(/^diff --git a\/(.+) b\/(.+)$/)], as its second group.
    [newSide r] reads [r] from where the first group begins.  The first
    group is greedy, so a longer first group is tried before the text is cut
    at the next [" b/"]; the [.] of either group takes no line terminator,
    and the second group runs to the end of the line. *)
Definition noLineTerminator (s : string) : bool :=
  negb (existsb Js.isLineTerminator (list_ascii_of_string s)).

Fixpoint newSide (r : string) : option string :=
  match r with
  | EmptyString => None
  | String c r' =>
      if Js.isLineTerminator c then None
      else match newSide r' with
           | Some f => Some f
           | None =>
               let f := Js.slice r' 3 None in
               if String.prefix " b/" r' && negb (String.eqb f "") && noLineTerminator f
               then Some f else None
           end
  end.

Definition diffHeader (line : string) : option string :=
  if String.prefix "diff --git a/" line
  then newSide (Js.slice line 13 None)
  else None.

(** The loop of [filterDiff] over the lines, with its two variables that
    matter to the result: the lines kept so far and [skipCurrentFile]. *)
Fixpoint filterLoop (ignorePatterns : list string) (lines : list string)
         (filteredLines : list string) (skipCurrentFile : bool) : Res (list string) :=
  match lines with
  | [] => Val filteredLines
  | line :: rest =>
      skip ← match diffHeader line with
             | Some currentFile => shouldIgnoreFile currentFile ignorePatterns
             | None => Val skipCurrentFile
             end;
      filterLoop ignorePatterns rest
                 (if skip : bool then filteredLines else filteredLines ++ [line]) skip
  end.

Definition filterDiff (diff : string) (ignorePatterns : list string) : Res string :=
  match ignorePatterns with
  | [] => Val diff
  | _ :: _ =>
      kept ← filterLoop ignorePatterns (Js.splitLines diff) [] false;
      Val (Js.joinLines kept)
  end.

(** ** The provider configuration *)

Record Preset := {
  baseURL : string;
  defaultModel : string;
  envKey : string
}.

Definition openaiPreset : Preset :=
  {| baseURL := "https://api.openai.com/v1";
     defaultModel := "gpt-4o-mini";
     envKey := "OPENAI_API_KEY" |}.

Definition deepseekPreset : Preset :=
  {| baseURL := "https://api.deepseek.com";
     defaultModel := "deepseek-chat";
     envKey := "DEEPSEEK_API_KEY" |}.

Definition AI_PROVIDERS : gmap string Preset :=
  <["openai" := openaiPreset]> (<["deepseek" := deepseekPreset]> ∅).

(** [AI_PROVIDERS] is an object literal, so [AI_PROVIDERS[name]] also finds
    the members that every object inherits from [Object.prototype].  Each of
    them is a function or an object: a true value that has none of the
    fields of a preset. *)
Definition objectPrototypeKeys : list string :=
  [ "constructor"; "__proto__"; "hasOwnProperty"; "isPrototypeOf";
    "propertyIsEnumerable"; "toLocaleString"; "toString"; "valueOf";
    "__defineGetter__"; "__defineSetter__"; "__lookupGetter__";
    "__lookupSetter__" ].

Inductive Member :=
| OwnPreset (p : Preset)
| Inherited
| Absent.

Definition providerMember (name : string) : Member :=
  match AI_PROVIDERS !! name with
  | Some p => OwnPreset p
  | None => if existsb (String.eqb name) objectPrototypeKeys then Inherited else Absent
  end.

(** [AI_PROVIDERS[provider] || AI_PROVIDERS.openai], as the preset whose
    fields are read afterwards; [None] is an inherited member. *)
Definition choosePreset (provider : string) : option Preset :=
  match providerMember provider with
  | OwnPreset p => Some p
  | Inherited => None
  | Absent => Some openaiPreset
  end.

(** [process.env[key]], where an [undefined] key is the name ["undefined"]. *)
Definition envAt (env : gmap string string) (key : option string) : option string :=
  env !! default "undefined" key.

Record AIConfig := {
  provider : string;
  apiKey : option string;
  cfgBaseURL : option string;
  model : option string
}.

Definition getAIConfig (env : gmap string string) : AIConfig :=
  let provider :=
    Js.toLowerCase (default "" (Js.or (env !! "AI_PROVIDER") (Some "openai"))) in
  let preset := choosePreset provider in
  {| provider := provider;
     apiKey := Js.or (envAt env (envKey <$> preset)) (env !! "OPENAI_API_KEY");
     cfgBaseURL := Js.or (env !! "OPENAI_BASE_URL") (baseURL <$> preset);
     model := Js.or (env !! "OPENAI_MODEL") (defaultModel <$> preset) |}.

(** *** The numeric settings *)

(** [parseInt(text)]: leading white space, a sign, an optional [0x], then the
    longest run of digits; [None] is [NaN].  [parseInt(undefined)] reads the
    text ["undefined"], which has no digit. *)
Definition digitValue (c : ascii) : option Z :=
  let n := nat_of_ascii c in
  if (48 <=? n)%nat && (n <=? 57)%nat then Some (Z.of_nat (n - 48))
  else if (97 <=? n)%nat && (n <=? 102)%nat then Some (Z.of_nat (n - 87))
  else if (65 <=? n)%nat && (n <=? 70)%nat then Some (Z.of_nat (n - 55))
  else None.

Fixpoint digitsFrom (radix : Z) (acc : option Z) (s : string) : option Z :=
  match s with
  | EmptyString => acc
  | String c r =>
      match digitValue c with
      | Some d =>
          if (d <? radix)%Z
          then digitsFrom radix (Some (default 0%Z acc * radix + d)%Z) r
          else acc
      | None => acc
      end
  end.

Definition parseUnsigned (s : string) : option Z :=
  if String.prefix "0x" s || String.prefix "0X" s
  then digitsFrom 16 None (Js.slice s 2 None)
  else digitsFrom 10 None s.

Definition parseInt (text : option string) : option Z :=
  match text with
  | None => None
  | Some t =>
      match Js.trimStart t with
      | String "-" r => Z.opp <$> parseUnsigned r
      | String "+" r => parseUnsigned r
      | s => parseUnsigned s
      end
  end.

(** [parseInt(text) || fallback]: [NaN] and zero give way to the fallback. *)
Definition parseIntOr (text : option string) (fallback : Z) : Z :=
  match parseInt text with
  | Some n => if (n =? 0)%Z then fallback else n
  | None => fallback
  end.

Record Config := {
  maxDiffSize : Z;
  skipBuild : bool;
  buildCommand : string;
  maxRetries : Z;
  retryDelay : Z
}.

Definition CONFIG (env : gmap string string) : Config :=
  {| maxDiffSize := parseIntOr (env !! "AI_REVIEW_MAX_DIFF_SIZE") 15000;
     skipBuild := bool_decide (env !! "AI_REVIEW_SKIP_BUILD" = Some "true");
     buildCommand :=
       default "" (Js.or (env !! "AI_REVIEW_BUILD_COMMAND") (Some "npm run build"));
     maxRetries := parseIntOr (env !! "AI_REVIEW_MAX_RETRIES") 3;
     retryDelay := parseIntOr (env !! "AI_REVIEW_RETRY_DELAY") 1000 |}.

(** ** Runs of the script *)

(** The lines the script writes to the console, one constructor per
    [console.log], [console.error] or [console.warn] call. *)
Inductive Message :=
| MsgSkipReview (commitSource : string)
| MsgNoApiKey
| MsgCurrentProvider (name : string)
| MsgNeededKey (key : string)
| MsgKnownProviders (names : list string)
| MsgAllowCommit
| MsgNothingStaged
| MsgAllIgnored
| MsgBuildStart (command : string)
| MsgBuildPassed
| MsgBuildFailed
| MsgNoVerifyHint
| MsgDiffTooLarge (size : nat)
| MsgDiffLimit (limit : Z)
| MsgReviewing
| MsgReviewPassed
| MsgCommitMessage (text : string)
| MsgSuggestion (reason : string)
| MsgReviewFailed
| MsgReason (reason : string)
| MsgCannotConnect
| MsgInvalidApiKey
| MsgRateLimited
| MsgReviewError (text : string).

(** What a run does to the world around it, in order. *)
Inductive Event :=
| Console (m : Message)
| GitDiffCached
| Build (command : string)
| RemoteCall (model : option string) (diff : string)
| Sleep (ms : Z)
| WriteFile (path : option string) (content : string).

(** How a step of a run ends: with a value, with a thrown value, with
    [process.exit(code)], or outside the model. *)
Inductive Step (A : Type) :=
| Next (a : A)
| Throw (t : Thrown)
| Exit (exitCode : Z)
| Unmodelled.
Arguments Next {A} a.
Arguments Throw {A} t.
Arguments Exit {A} exitCode.
Arguments Unmodelled {A}.

(** A computation with effects: the events it causes and how it ends. *)
Record M (A : Type) := Run { events : list Event; outcome : Step A }.
Arguments Run {A} events outcome.
Arguments events {A} m.
Arguments outcome {A} m.

#[global] Instance M_ret : MRet M := fun A a => Run [] (Next a).

#[global] Instance M_bind : MBind M := fun A B f m =>
  match outcome m with
  | Next a => Run (events m ++ events (f a)) (outcome (f a))
  | Throw t => Run (events m) (Throw t)
  | Exit c => Run (events m) (Exit c)
  | Unmodelled => Run (events m) Unmodelled
  end.

Definition emit (e : Event) : M unit := Run [e] (Next tt).
Definition print (m : Message) : M unit := emit (Console m).
Definition throw {A : Type} (t : Thrown) : M A := Run [] (Throw t).
Definition exit {A : Type} (c : Z) : M A := Run [] (Exit c).

Definition liftRes {A : Type} (r : Res A) : M A :=
  match r with
  | Val a => Run [] (Next a)
  | Raise t => Run [] (Throw t)
  | Beyond => Run [] Unmodelled
  end.

(** [try { m } catch (error) { handler(error) }]. *)
Definition tryCatch {A : Type} (m : M A) (handler : Thrown -> M A) : M A :=
  match outcome m with
  | Throw t => Run (events m ++ events (handler t)) (outcome (handler t))
  | _ => m
  end.

Definition when (b : bool) (m : M unit) : M unit :=
  if b then m else mret tt.

(** *** The retry controller *)

Definition statusIs (e : JsError) (n : Z) : bool :=
  match err_status e with
  | Some s => (s =? n)%Z
  | None => false
  end.

(** The [for] loop of [callWithRetry].  [fn n] is what the [n]-th call of
    the wrapped operation does; the loop calls it once per attempt, so the
    call of attempt [n] is the [n]-th.  [remaining] counts the values that
    [attempt] still takes up to [retries]; when none is left the loop ends
    and [lastError] is thrown.  Reading [error.status] of a thrown
    [undefined] raises a [TypeError] from within the handler. *)
Fixpoint retryLoop {A : Type} (delay : Z) (fn : nat -> M A) (retries : Z)
         (remaining : nat) (attempt : Z) (lastError : Thrown) : M A :=
  match remaining with
  | O => throw lastError
  | S remaining' =>
      tryCatch (fn (Z.to_nat attempt)) (fun error =>
        match error with
        | ThrownUndefined => throw (ThrownError typeError)
        | ThrownError e =>
            if statusIs e 401 || statusIs e 403 then throw error
            else if statusIs e 429 then
              emit (Sleep (delay * attempt * 2));;
              retryLoop delay fn retries remaining' (attempt + 1) error
            else
              when (attempt <? retries)%Z (emit (Sleep (delay * attempt)));;
              retryLoop delay fn retries remaining' (attempt + 1) error
        end)
  end.

Definition callWithRetry {A : Type} (delay : Z) (fn : nat -> M A) (retries : Z) : M A :=
  retryLoop delay fn retries (Z.to_nat retries) 1 ThrownUndefined.

(** *** The world of one run *)

(** The object that [JSON.parse] makes of the reply, with the three fields
    of the reply contract; [is_passed] is the truth value of the field. *)
Record Verdict := {
  is_passed : bool;
  reason : string;
  message : string
}.

(** A completion, seen through
    [JSON.parse(completion.choices[0].message.content)]: the parsed object,
    or the error that this expression throws. *)
Inductive Completion :=
| Content (result : Verdict)
| Malformed (e : JsError).

(** One call of the remote service: the client resolves with a completion or
    rejects with an error object. *)
Inductive ApiOutcome :=
| Resolves (c : Completion)
| Rejects (e : JsError).

(** What the script finds around it: its two arguments, the environment
    once the [.env] files are loaded, the ignore file at the project root and
    the one in the working directory, what [git diff --cached] gives, whether
    the build command succeeds, what the [n]-th call of the remote service
    does, and the error of writing the commit message file if it cannot be
    written. *)
Record World := {
  commitMsgFile : option string;
  commitSource : option string;
  env : gmap string string;
  rootIgnoreFile : option string;
  cwdIgnoreFile : option string;
  stagedDiff : JsError + string;
  buildPasses : bool;
  api : nat -> ApiOutcome;
  writeFailure : option JsError
}.

(** [loadReviewIgnore]: the first of the two files that exists is read, and
    its lines that are neither blank nor comments are the patterns. *)
Definition ignoreLines (content : string) : list string :=
  List.filter (fun t => negb (String.eqb t "") && negb (Js.startsWith t "#"))
         (map Js.trim (Js.splitLines content)).

Definition loadReviewIgnore (w : World) : list string :=
  match rootIgnoreFile w, cwdIgnoreFile w with
  | Some content, _ => ignoreLines content
  | None, Some content => ignoreLines content
  | None, None => []
  end.

(** The wrapped operation of the script: the [n]-th call of
    [openai.chat.completions.create]. *)
Definition createCompletion (api : nat -> ApiOutcome) (model : option string)
           (diff : string) (n : nat) : M Completion :=
  emit (RemoteCall model diff);;
  match api n with
  | Resolves c => mret c
  | Rejects e => throw (ThrownError e)
  end.

(** [fs.writeFileSync(commitMsgFile, content)]. *)
Definition writeFileSync (w : World) (content : string) : M unit :=
  match commitMsgFile w, writeFailure w with
  | None, _ =>
      throw (ThrownError {| err_code := Some "ERR_INVALID_ARG_TYPE";
                            err_status := None;
                            err_message := "The path argument must be of type string" |})
  | Some _, Some e => throw (ThrownError e)
  | Some path, None => emit (WriteFile (Some path) content)
  end.

(** The banner of the comment block, in UTF-8. *)
Definition adviceBanner : string := "# --- AI Review 建议 ---".

Definition nonBlank (s : string) : bool :=
  negb (String.eqb s "") && negb (String.eqb (Js.trim s) "").

Definition commentLines (text : string) : string :=
  Js.joinLines (map (fun line => "# " +:+ line) (Js.splitLines text)).

Definition composeMessage (result : Verdict) : string :=
  if nonBlank (reason result)
  then message result +:+ String Js.LF (String Js.LF adviceBanner)
       +:+ String Js.LF (commentLines (reason result))
  else message result.

(** *** The steps of [runAIReview] *)

(** From the ignore file to the parsed reply. *)
Definition fetchVerdict (w : World) : M Verdict :=
  let aiConfig := getAIConfig (env w) in
  let cfg := CONFIG (env w) in
  let ignorePatterns := loadReviewIgnore w in
  emit GitDiffCached;;
  diff ← match stagedDiff w with
         | inr text => mret text
         | inl e => throw (ThrownError e)
         end;
  (if String.eqb (Js.trim diff) "" then print MsgNothingStaged;; exit 0 else mret tt);;
  diff ← liftRes (filterDiff diff ignorePatterns);
  (if String.eqb (Js.trim diff) "" then print MsgAllIgnored;; exit 0 else mret tt);;
  (if skipBuild cfg then mret tt
   else
     print (MsgBuildStart (buildCommand cfg));;
     emit (Build (buildCommand cfg));;
     if buildPasses w then print MsgBuildPassed
     else print MsgBuildFailed;; print MsgNoVerifyHint;; exit 1);;
  when (maxDiffSize cfg <? Z.of_nat (String.length diff))%Z
       (print (MsgDiffTooLarge (String.length diff));;
        print (MsgDiffLimit (maxDiffSize cfg)));;
  let truncatedDiff := Js.slice diff 0 (Some (maxDiffSize cfg)) in
  print MsgReviewing;;
  completion ← callWithRetry (retryDelay cfg)
                 (createCompletion (api w) (model aiConfig) truncatedDiff)
                 (maxRetries cfg);
  match completion with
  | Content result => mret result
  | Malformed e => throw (ThrownError e)
  end.

(** What is done with the parsed reply. *)
Definition handleResult (w : World) (result : Verdict) : M unit :=
  if is_passed result then
    writeFileSync w (composeMessage result);;
    print MsgReviewPassed;;
    print (MsgCommitMessage (message result));;
    when (nonBlank (reason result)) (print (MsgSuggestion (reason result)));;
    exit 0
  else
    print MsgReviewFailed;;
    print (MsgReason (reason result));;
    print MsgNoVerifyHint;;
    exit 1.

(** The [catch] block.  It reads [error.code] first, which raises a
    [TypeError] of its own when the thrown value is [undefined]. *)
Definition onError (error : Thrown) : M unit :=
  match error with
  | ThrownUndefined => throw (ThrownError typeError)
  | ThrownError e =>
      (if bool_decide (err_code e = Some "ECONNREFUSED")
          || bool_decide (err_code e = Some "ETIMEDOUT")
       then print MsgCannotConnect
       else if statusIs e 401 then print MsgInvalidApiKey
       else if statusIs e 429 then print MsgRateLimited
       else print (MsgReviewError (err_message e)));;
      print MsgAllowCommit;;
      exit 0
  end.

Definition runAIReview (w : World) : M unit :=
  tryCatch (result ← fetchVerdict w; handleResult w result) onError.

(** *** The whole script *)

(** How the process ends.  [runAIReview()] is called without a handler for
    its promise, so a value thrown out of it is an unhandled rejection. *)
Inductive Status :=
| Exited (exitCode : Z)
| UnhandledRejection (t : Thrown)
| OutsideModel.

Definition skippedSources : list string := ["message"; "merge"; "squash"; "commit"].

Definition gateSkips (commitSource : option string) : bool :=
  match commitSource with
  | Some tag => existsb (String.eqb tag) skippedSources
  | None => false
  end.

(** The statements of the script in their order.  Loading the modules and
    the [.env] files and building the client between the credential check
    and the call of [runAIReview] are taken to succeed. *)
Definition main (w : World) : M unit :=
  let aiConfig := getAIConfig (env w) in
  if gateSkips (commitSource w) then
    print (MsgSkipReview (default "" (commitSource w)));;
    exit 0
  else if negb (Js.truthy (apiKey aiConfig)) then
    print MsgNoApiKey;;
    print (MsgCurrentProvider (provider aiConfig));;
    print (MsgNeededKey
             (default "OPENAI_API_KEY" (envKey <$> AI_PROVIDERS !! provider aiConfig)));;
    print (MsgKnownProviders ["openai"; "deepseek"]);;
    print MsgAllowCommit;;
    exit 0
  else runAIReview w.

Definition statusOf (m : M unit) : Status :=
  match outcome m with
  | Next _ => Exited 0
  | Exit c => Exited c
  | Throw t => UnhandledRejection t
  | Unmodelled => OutsideModel
  end.

(** The exit code of the process.  An unhandled rejection ends a Node
    process with code 1. *)
Definition exitCodeOf (s : Status) : option Z :=
  match s with
  | Exited c => Some c
  | UnhandledRejection _ => Some 1%Z
  | OutsideModel => None
  end.

(** What a run leaves behind. *)
Definition isRemoteCall (e : Event) : bool :=
  match e with RemoteCall _ _ => true | _ => false end.

Definition isWriteFile (e : Event) : bool :=
  match e with WriteFile _ _ => true | _ => false end.

Definition isSleep (e : Event) : bool :=
  match e with Sleep _ => true | _ => false end.

Definition remoteCalls (evs : list Event) : nat :=
  List.length (List.filter isRemoteCall evs).

Definition written (evs : list Event) : list Event := List.filter isWriteFile evs.

Definition sleeps (evs : list Event) : list Z :=
  omap (fun e => match e with Sleep ms => Some ms | _ => None end) evs.

(** ** Last match wins, stated on its own *)

(** The rules of a pattern list, compiled in order. *)
Definition compileAll (patterns : list string) : Res (list Rule) :=
  mapM patternToRegex patterns.

Definition accepts (filePath : string) (r : Rule) : bool :=
  RegExp.test (regex r) filePath.

(** The last rule of the list that accepts the path decides; a path that no
    rule accepts is not ignored. *)
Definition lastMatchWins (filePath : string) (rules : list Rule) : bool :=
  match last (List.filter (accepts filePath) rules) with
  | Some r => negb (negated r)
  | None => false
  end.

(** One turn of the loop of [shouldIgnoreFile] on a compiled rule. *)
Definition stepRule (filePath : string) (ignored : bool) (r : Rule) : bool :=
  if accepts filePath r then negb (negated r) else ignored.

(** ** Notions used to state the properties of the filter *)

Fixpoint hasLF (s : string) : bool :=
  match s with
  | EmptyString => false
  | String c r => Ascii.eqb c Js.LF || hasLF r
  end.

(** A line that the filter keeps whenever it meets it: it is no file header,
    or the header of a file that the patterns do not ignore. *)
Definition keptHeader (ignorePatterns : list string) (line : string) : Prop :=
  forall currentFile,
    diffHeader line = Some currentFile ->
    shouldIgnoreFile currentFile ignorePatterns = Val false.

(** ** The failure classes of the retry controller *)

Definition isFatal (e : JsError) : bool := statusIs e 401 || statusIs e 403.

Definition isRateLimit (e : JsError) : bool :=
  negb (isFatal e) && statusIs e 429.

Definition isTransient (e : JsError) : bool :=
  negb (isFatal e) && negb (statusIs e 429).

(** ** Sample runs *)

Definition line (text : string) (more : string) : string :=
  text +:+ String Js.LF more.

(** A staged change of one file under [dist/]. *)
Definition distDiff : string :=
  line "diff --git a/dist/bundle.js b/dist/bundle.js"
  (line "index 83db48f..bf2691a 100644"
  (line "--- a/dist/bundle.js"
  (line "+++ b/dist/bundle.js"
  (line "@@ -1 +1 @@"
  (line "-var a=1"
  (line "+var a=2" "")))))).

Definition approve (text : string) : ApiOutcome :=
  Resolves (Content {| is_passed := true; reason := ""; message := text |}).

(** A run with a credential and without the build check. *)
Definition world (source : option string) (settings : list (string * string))
           (ignoreFile : option string) (diff : string) (service : nat -> ApiOutcome) : World :=
  {| commitMsgFile := Some ".git/COMMIT_EDITMSG";
     commitSource := source;
     env := list_to_map (("OPENAI_API_KEY", "sk-test")
                           :: ("AI_REVIEW_SKIP_BUILD", "true") :: settings);
     rootIgnoreFile := ignoreFile;
     cwdIgnoreFile := None;
     stagedDiff := inr diff;
     buildPasses := true;
     api := service;
     writeFailure := None |}.

Definition mergeWorld : World :=
  world (Some "merge") [] None distDiff
        (fun _ => approve "feat(auth): add token check").

Definition distIgnoredWorld : World :=
  world None [] (Some "dist/") distDiff
        (fun _ => approve "chore: rebuild bundle").

Definition emptyMessageWorld : World :=
  world None [] None distDiff (fun _ => approve "").

Definition rejectedWorld : World :=
  world None [] None distDiff
        (fun _ => Resolves (Content {| is_passed := false;
                                       reason := "hardcoded secret detected";
                                       message := "" |})).

Definition negativeBudgetWorld : World :=
  world None [("AI_REVIEW_MAX_RETRIES", "-1")] None distDiff
        (fun _ => approve "chore: rebuild bundle").

Definition unauthorized : JsError :=
  {| err_code := None; err_status := Some 401%Z; err_message := "Unauthorized" |}.

Definition timedOut : JsError :=
  {| err_code := Some "ETIMEDOUT"; err_status := None; err_message := "Request timed out" |}.

(** A service that is out of reach twice and then answers. *)
Definition flakyService (n : nat) : ApiOutcome :=
  if (n <? 3)%nat then Rejects timedOut else approve "fix: retry the upload".

(** ** Notions used to state the fail-open policy *)



(** ** Notions used to state the course of the retry loop *)

(** The service rejects the call with an error that does not end the loop. *)
Definition retryable (api : nat -> ApiOutcome) (n : nat) : Prop :=
  exists e, api n = Rejects e /\ isFatal e = false.

(** Every attempt from [lo] to [hi] is rejected with an error of class [cls]. *)
Definition allRejected (api : nat -> ApiOutcome) (cls : JsError -> bool) (lo hi : nat) : Prop :=
  forall n, (lo <= n <= hi)%nat -> exists e, api n = Rejects e /\ cls e = true.

(** A service that is out of reach at every call, and one that always
    answers with status 429. *)
Definition tooManyRequests : JsError :=
  {| err_code := None; err_status := Some 429%Z; err_message := "Too Many Requests" |}.

Definition deadService (n : nat) : ApiOutcome := Rejects timedOut.
Definition busyService (n : nat) : ApiOutcome := Rejects tooManyRequests.

(** ** Notions used to state what a pattern without wildcard matches *)

(** A pattern that is a plain name or relative path: no [*] and no [?], no
    [!] or [/] in front, no [/] at the end. *)
Definition literalPattern (pattern : string) : bool :=
  negb (RegExp.mem "*" pattern) && negb (RegExp.mem "?" pattern)
  && negb (Js.startsWith pattern "!") && negb (Js.startsWith pattern "/")
  && negb (Js.endsWith pattern "/").

(** The frame of the parser after it has read the characters of [s] as
    literals. *)
Fixpoint pushChars (s : string) (top : RegExp.Frame) : RegExp.Frame :=
  match s with
  | EmptyString => top
  | String c r => pushChars r (RegExp.pushTerm top (RChar c) RegExp.KAtom)
  end.

(** [chain rs p q]: matching the expressions [rs] one after the other leads
    from position [p] to position [q]. *)
Fixpoint chain (rs : list Re) (p q : RegExp.Pos) : Prop :=
  match rs with
  | [] => p = q
  | r :: rs' => exists m, In m (RegExp.ends r p) /\ chain rs' m q
  end.

(** ** Loading the [.env] files *)

(** [s.split(sep)] and [parts.join(sep)] for a separator of one character. *)
Fixpoint splitOn (sep : ascii) (s : string) : list string :=
  match s with
  | EmptyString => [""]
  | String c r =>
      if Ascii.eqb c sep then "" :: splitOn sep r
      else match splitOn sep r with
           | h :: t => String c h :: t
           | [] => [String c ""]
           end
  end.

Fixpoint joinWith (sep : ascii) (l : list string) : string :=
  match l with
  | [] => ""
  | [x] => x
  | x :: t => x +:+ String sep (joinWith sep t)
  end.

(** What one line of a [.env] file assigns: the body of the [forEach] in
    [loadEnv].  The key is the text before the first [=], the value all the
    text after it. *)
Definition envAssignment (line : string) : option (string * string) :=
  let trimmed := Js.trim line in
  if negb (String.eqb trimmed "") && negb (Js.startsWith trimmed "#") then
    match splitOn "=" trimmed with
    | key :: vals =>
        if negb (String.eqb key "") && negb (Nat.eqb (List.length vals) 0)
        then Some (Js.trim key, Js.trim (joinWith "=" vals))
        else None
    | [] => None
    end
  else None.

Definition assign (env : gmap string string) (line : string) : gmap string string :=
  match envAssignment line with
  | Some (key, value) => <[key := value]> env
  | None => env
  end.

(** [loadEnv(envPath)] on [process.env]; [file] is the content of the file
    if it exists. *)
Definition loadEnv (file : option string) (env : gmap string string) : gmap string string :=
  match file with
  | Some envContent => fold_left assign (Js.splitLines envContent) env
  | None => env
  end.

(** The environment of the script after its two calls of [loadEnv]: the
    file of the project root first, then the one of the working directory. *)
Definition loadedEnv (rootEnvFile cwdEnvFile : option string) (processEnv : gmap string string)
  : gmap string string :=
  loadEnv cwdEnvFile (loadEnv rootEnvFile processEnv).

(** The assignments of a file, in the order of its lines. *)
Definition assignments (envContent : string) : list (string * string) :=
  omap envAssignment (Js.splitLines envContent).

(** The value that a list of assignments leaves under a key: the one of the
    last assignment to this key. *)
Definition lastAssigned (key : string) (kvs : list (string * string)) : option string :=
  snd <$> last (List.filter (fun kv => String.eqb (fst kv) key) kvs).

Definition assignmentsOf (file : option string) : list (string * string) :=
  match file with
  | Some envContent => assignments envContent
  | None => []
  end.

(** ** Notions used to state what a run does around the verdict *)

Definition isConsole (e : Event) : bool :=
  match e with Console _ => true | _ => false end.

(** The text sent with a remote call is within the limit. *)
Definition withinLimit (limit : Z) (e : Event) : Prop :=
  match e with
  | RemoteCall _ diff => (Z.of_nat (String.length diff) <= limit)%Z
  | _ => True
  end.

(** A run whose staged diff is one empty line, one whose ignore file covers
    every staged file, one whose build check fails, and one with a limit of
    40 code units on the text that is sent. *)
Definition blankDiffWorld : World :=
  world None [] None (String Js.LF "") (fun _ => approve "chore: nothing").

Definition scriptsIgnoredWorld : World :=
  world None [] (Some (line "# generated files" "*.js")) distDiff
        (fun _ => approve "chore: rebuild bundle").

Definition brokenBuildWorld : World :=
  {| commitMsgFile := Some ".git/COMMIT_EDITMSG";
     commitSource := None;
     env := list_to_map [("OPENAI_API_KEY", "sk-test")];
     rootIgnoreFile := None;
     cwdIgnoreFile := None;
     stagedDiff := inr distDiff;
     buildPasses := false;
     api := fun _ => approve "chore: rebuild bundle";
     writeFailure := None |}.

Definition smallLimitWorld : World :=
  world None [("AI_REVIEW_MAX_DIFF_SIZE", "40")] None distDiff
        (fun _ => approve "chore: rebuild bundle").

(** A verdict that passes with two lines of advice. *)
Definition advisedVerdict : Verdict :=
  {| is_passed := true;
     reason := line "rename tmp to buffer" "drop the unused import";
     message := "refactor(io): stream the upload" |}.

(** * Properties *)

(** ** The embedding on small inputs *)

Example slice_2 : Js.slice "/dist" 2 None = "ist".
Proof. reflexivity. Qed.
Example slice_0_m2 : Js.slice "(^|/)dist/" 0 (Some (-2)%Z) = "(^|/)dis".
Proof. reflexivity. Qed.
Example slice_short : Js.slice "^" 0 (Some (-2)%Z) = "".
Proof. reflexivity. Qed.
Example split_join :
  Js.joinLines (Js.splitLines (String "a" (String Js.LF "b"))) = String "a" (String Js.LF "b").
Proof. reflexivity. Qed.
Example replace_dstar : Js.replaceAll "**" "{{DOUBLE_STAR}}" "a***b" = "a{{DOUBLE_STAR}}*b".
Proof. reflexivity. Qed.
Example trim_ex : Js.trim "  a b  " = "a b".
Proof. reflexivity. Qed.
Example lower_ex : Js.toLowerCase "DeepSeek" = "deepseek".
Proof. reflexivity. Qed.
Example src_md : regexSource "*.md" = "(^|/)[^/]*\.md($|/)".
Proof. reflexivity. Qed.
Example src_dist_dir : regexSource "dist/" = "(^|/)dis(/|$)".
Proof. reflexivity. Qed.
Example src_root_dist : regexSource "/dist" = "^ist($|/)".
Proof. reflexivity. Qed.
Example src_snap : regexSource "**/*.snap" = "(^|/).*/[^/]*\.snap($|/)".
Proof. reflexivity. Qed.
Example compile_md :
  RegExp.compile "(^|/)[^/]*\.md($|/)"
  = RegExp.Regex
      (RCat (RAlt RBol (RChar "/"))
         (RCat (RStar RNotSlash)
            (RCat (RChar ".") (RCat (RChar "m") (RCat (RChar "d") (RAlt REol (RChar "/"))))))).
Proof. reflexivity. Qed.
Example compile_nothing_to_repeat : RegExp.compile "^*/x($|/)" = RegExp.SyntaxError.
Proof. reflexivity. Qed.
Example compile_unmatched : RegExp.compile "(^|/)v1\(/|$)" = RegExp.SyntaxError.
Proof. reflexivity. Qed.
Example compile_digit_class : RegExp.compile "^\d($|/)" = RegExp.OutsideFragment.
Proof. reflexivity. Qed.
Example ignore_lock : shouldIgnoreFile "packages/a/package-lock.json" ["package-lock.json"] = Val true.
Proof. vm_compute. reflexivity. Qed.
Example ignore_min_js :
  shouldIgnoreFile "public/app.min.js" ["*.min.js"] = Val true
  /\ shouldIgnoreFile "public/app.js" ["*.min.js"] = Val false.
Proof. split; vm_compute; reflexivity. Qed.
Example header_new_side :
  diffHeader "diff --git a/src/a b/c.js b/src/a b/c.js" = Some "c.js"
  /\ diffHeader "diff --git a/x b/" = None
  /\ diffHeader "index 83db48f..bf2691a 100644" = None.
Proof. repeat split; reflexivity. Qed.
Example parseInt_samples :
  parseInt (Some "-1") = Some (-1)%Z /\ parseInt (Some " 42px") = Some 42%Z
  /\ parseInt (Some "0x1f") = Some 31%Z /\ parseInt (Some "abc") = None
  /\ parseInt None = None /\ parseIntOr (Some "0") 3 = 3%Z.
Proof. repeat split; reflexivity. Qed.

(** ** The monads *)

Lemma rbind_val {A B : Type} (a : A) (f : A -> Res B) : (Val a ≫= f) = f a.
Proof. reflexivity. Qed.

Lemma rbind_ret_r {A : Type} (m : Res A) : (m ≫= Val) = m.
Proof. destruct m; reflexivity. Qed.

(** ** Rule evaluation *)

Lemma ignoreLoop_compileAll (filePath : string) (patterns : list string) (ignored : bool) :
  ignoreLoop filePath patterns ignored =
  (rules ← compileAll patterns; Val (fold_left (stepRule filePath) rules ignored)).
Proof.
  revert ignored. induction patterns as [|p ps IH]; intros ignored; [reflexivity|].
  unfold compileAll in *. simpl.
  destruct (patternToRegex p) as [r| |]; try reflexivity.
  rewrite !rbind_val. rewrite IH.
  destruct (mapM patternToRegex ps); reflexivity.
Qed.

Lemma fold_stepRule_last (filePath : string) (rules : list Rule) (ignored : bool) :
  fold_left (stepRule filePath) rules ignored =
  match last (List.filter (accepts filePath) rules) with
  | Some r => negb (negated r)
  | None => ignored
  end.
Proof.
  revert ignored. induction rules as [|r rs IH]; intros ignored; [reflexivity|].
  simpl. rewrite IH. unfold stepRule.
  destruct (accepts filePath r) eqn:Hr; [|reflexivity].
  rewrite last_cons. destruct (last (List.filter (accepts filePath) rs)); reflexivity.
Qed.

(** C4. Rule evaluation is last-match-wins: [shouldIgnoreFile] compiles the
    patterns in order and answers [!negated] of the last rule that accepts
    the path, and [false] when none does.  Under ["*.md"; "!README.md"]
    README.md is kept and CHANGELOG.md is ignored; with the two rules in the
    other order README.md is ignored. *)
Theorem shouldIgnoreFile_last_match_wins :
  (forall (filePath : string) (patterns : list string),
     shouldIgnoreFile filePath patterns =
     (rules ← compileAll patterns; Val (lastMatchWins filePath rules)))
  /\ shouldIgnoreFile "README.md" ["*.md"; "!README.md"] = Val false
  /\ shouldIgnoreFile "CHANGELOG.md" ["*.md"; "!README.md"] = Val true
  /\ shouldIgnoreFile "README.md" ["!README.md"; "*.md"] = Val true.
Proof.
  split; [|repeat split; vm_compute; reflexivity].
  intros filePath patterns. unfold shouldIgnoreFile, lastMatchWins.
  rewrite ignoreLoop_compileAll.
  destruct (compileAll patterns) as [rules| |]; try reflexivity.
  rewrite !rbind_val. f_equal. apply fold_stepRule_last.
Qed.

(** ** Lines *)

Lemma splitLines_no_LF (s : string) : hasLF s = false -> Js.splitLines s = [s].
Proof.
  induction s as [|c r IH]; [reflexivity|]. simpl.
  intros H. apply orb_false_iff in H as [Hc Hr].
  rewrite Hc, (IH Hr). reflexivity.
Qed.

Lemma splitLines_app_LF (s t : string) :
  hasLF s = false -> Js.splitLines (s +:+ String Js.LF t) = s :: Js.splitLines t.
Proof.
  induction s as [|c r IH]; [reflexivity|]. simpl.
  intros H. apply orb_false_iff in H as [Hc Hr].
  rewrite Hc, (IH Hr). reflexivity.
Qed.

Lemma splitLines_joinLines (ls : list string) :
  ls <> [] -> Forall (fun l => hasLF l = false) ls ->
  Js.splitLines (Js.joinLines ls) = ls.
Proof.
  induction ls as [|x [|y t] IH]; intros Hne Hall; [congruence| |].
  - simpl. apply splitLines_no_LF. by inversion Hall.
  - inversion Hall as [|? ? Hx Ht]; subst.
    change (Js.joinLines (x :: y :: t)) with (x +:+ String Js.LF (Js.joinLines (y :: t))).
    rewrite (splitLines_app_LF _ _ Hx). f_equal. by apply IH.
Qed.

Lemma splitLines_lines (s : string) :
  Js.splitLines s <> [] /\ Forall (fun l => hasLF l = false) (Js.splitLines s).
Proof.
  induction s as [|c r [IHne IH]]; simpl.
  - split; [discriminate|]. by repeat constructor.
  - destruct (Ascii.eqb c Js.LF) eqn:Hc.
    + split; [discriminate|]. by constructor.
    + destruct (Js.splitLines r) as [|h t]; [congruence|].
      split; [discriminate|]. inversion IH; subst.
      constructor; [|done]. simpl. by rewrite Hc.
Qed.

(** ** The loop of the filter *)

Lemma filterLoop_acc (R lines acc : list string) (skip : bool) :
  filterLoop R lines acc skip =
  (kept ← filterLoop R lines [] skip; Val (acc ++ kept)).
Proof.
  revert acc skip. induction lines as [|line rest IH]; intros acc skip; simpl.
  - rewrite ?rbind_val. by rewrite app_nil_r.
  - destruct (match diffHeader line with
              | Some currentFile => shouldIgnoreFile currentFile R
              | None => Val skip
              end) as [skip'| |]; try reflexivity.
    rewrite ?rbind_val.
    rewrite (IH (if skip' then acc else acc ++ [line])).
    rewrite (IH (if skip' then [] else [] ++ [line])).
    destruct (filterLoop R rest [] skip') as [kept| |]; try reflexivity.
    rewrite ?rbind_val. f_equal.
    destruct skip'; simpl; [reflexivity|]. by rewrite <- app_assoc.
Qed.

Lemma filterLoop_keeps (R lines kept : list string) (skip : bool) :
  filterLoop R lines [] skip = Val kept ->
  Forall (keptHeader R) kept /\
  forall P : string -> Prop, Forall P lines -> Forall P kept.
Proof.
  revert skip kept. induction lines as [|line rest IH]; intros skip kept; simpl.
  - intros [= <-]. split; [constructor|]. intros; constructor.
  - destruct (diffHeader line) as [f|] eqn:Hh.
    + destruct (shouldIgnoreFile f R) as [skip'| |] eqn:Hf; try discriminate.
      rewrite ?rbind_val, filterLoop_acc.
      destruct (filterLoop R rest [] skip') as [kept'| |] eqn:Hrest; try discriminate.
      rewrite ?rbind_val. intros [= <-].
      destruct (IH _ _ Hrest) as [Hk Hsub].
      destruct skip'; simpl.
      * split; [done|]. intros P HP. inversion HP; subst. by apply Hsub.
      * split.
        -- constructor; [|done]. intros f' Hf'. congruence.
        -- intros P HP. inversion HP; subst. constructor; [done|]. by apply Hsub.
    + rewrite ?rbind_val, filterLoop_acc.
      destruct (filterLoop R rest [] skip) as [kept'| |] eqn:Hrest; try discriminate.
      rewrite ?rbind_val. intros [= <-].
      destruct (IH _ _ Hrest) as [Hk Hsub].
      destruct skip; simpl.
      * split; [done|]. intros P HP. inversion HP; subst. by apply Hsub.
      * split.
        -- constructor; [|done]. intros f' Hf'. congruence.
        -- intros P HP. inversion HP; subst. constructor; [done|]. by apply Hsub.
Qed.

Lemma filterLoop_kept_again (R ls : list string) :
  Forall (keptHeader R) ls -> filterLoop R ls [] false = Val ls.
Proof.
  induction ls as [|line rest IH]; intros Hall; [reflexivity|].
  inversion Hall as [|? ? Hline Hrest]; subst. simpl.
  assert (match diffHeader line with
          | Some currentFile => shouldIgnoreFile currentFile R
          | None => Val false
          end = Val false) as ->.
  { destruct (diffHeader line) as [f|] eqn:Hh; [|reflexivity]. by apply Hline. }
  rewrite ?rbind_val, filterLoop_acc, (IH Hrest). reflexivity.
Qed.

(** C5. The changeset filter is idempotent: filtering the output of the
    filter again, with the same rules, gives that output (and when the
    first pass throws, so does the composition). *)
Theorem filterDiff_idempotent (diff : string) (ignorePatterns : list string) :
  (filtered ← filterDiff diff ignorePatterns; filterDiff filtered ignorePatterns)
  = filterDiff diff ignorePatterns.
Proof.
  destruct ignorePatterns as [|p ps]; [reflexivity|].
  set (R := p :: ps). unfold filterDiff. fold R.
  change (match R with [] => Val diff | _ :: _ => ?x end) with x.
  destruct (filterLoop R (Js.splitLines diff) [] false) as [kept| |] eqn:Hloop;
    try reflexivity.
  rewrite ?rbind_val.
  destruct (filterLoop_keeps _ _ _ _ Hloop) as [Hkept Hsub].
  destruct kept as [|k ks]; [reflexivity|].
  subst R. cbv iota.
  rewrite splitLines_joinLines;
    [|discriminate|apply Hsub, splitLines_lines].
  rewrite (filterLoop_kept_again _ _ Hkept). reflexivity.
Qed.

(** ** Runs *)

Lemma M_eta {A : Type} (m : M A) : Run (events m) (outcome m) = m.
Proof. by destruct m. Qed.

Lemma emit_then {A : Type} (e : Event) (m : M A) :
  (emit e;; m) = Run (e :: events m) (outcome m).
Proof. reflexivity. Qed.

Lemma remoteCalls_app (xs ys : list Event) :
  remoteCalls (xs ++ ys) = (remoteCalls xs + remoteCalls ys)%nat.
Proof. unfold remoteCalls. by rewrite List.filter_app, length_app. Qed.

(** ** The retry controller, one attempt at a time *)

Section RetrySteps.
Context (delay : Z) (api : nat -> ApiOutcome) (md : option string) (diff : string).
Context (retries : Z) (remaining : nat) (attempt : Z) (lastError : Thrown).

Lemma retry_success (c : Completion) :
  api (Z.to_nat attempt) = Resolves c ->
  retryLoop delay (createCompletion api md diff) retries (S remaining) attempt lastError
  = Run [RemoteCall md diff] (Next c).
Proof.
  intros H. simpl. unfold createCompletion. rewrite H. reflexivity.
Qed.

Lemma retry_fatal (e : JsError) :
  api (Z.to_nat attempt) = Rejects e -> isFatal e = true ->
  retryLoop delay (createCompletion api md diff) retries (S remaining) attempt lastError
  = Run [RemoteCall md diff] (Throw (ThrownError e)).
Proof.
  intros H Hf. simpl. unfold createCompletion. rewrite H.
  unfold tryCatch. simpl. unfold isFatal in Hf. rewrite Hf. reflexivity.
Qed.

Lemma retry_rate_limited (e : JsError) :
  api (Z.to_nat attempt) = Rejects e -> isRateLimit e = true ->
  retryLoop delay (createCompletion api md diff) retries (S remaining) attempt lastError
  = Run (RemoteCall md diff
           :: Sleep (delay * attempt * 2)
           :: events (retryLoop delay (createCompletion api md diff) retries
                                remaining (attempt + 1) (ThrownError e)))
        (outcome (retryLoop delay (createCompletion api md diff) retries
                            remaining (attempt + 1) (ThrownError e))).
Proof.
  intros H Hr. apply andb_true_iff in Hr as [Hnf H429].
  apply negb_true_iff in Hnf. unfold isFatal in Hnf.
  simpl. unfold createCompletion. rewrite H.
  unfold tryCatch. simpl. rewrite Hnf, H429. reflexivity.
Qed.

Lemma retry_transient (e : JsError) :
  api (Z.to_nat attempt) = Rejects e -> isTransient e = true ->
  retryLoop delay (createCompletion api md diff) retries (S remaining) attempt lastError
  = Run (RemoteCall md diff
           :: (if (attempt <? retries)%Z then [Sleep (delay * attempt)] else [])
           ++ events (retryLoop delay (createCompletion api md diff) retries
                                remaining (attempt + 1) (ThrownError e)))
        (outcome (retryLoop delay (createCompletion api md diff) retries
                            remaining (attempt + 1) (ThrownError e))).
Proof.
  intros H Ht. apply andb_true_iff in Ht as [Hnf H429].
  apply negb_true_iff in Hnf. apply negb_true_iff in H429. unfold isFatal in Hnf.
  simpl. unfold createCompletion. rewrite H.
  unfold tryCatch. simpl. rewrite Hnf, H429.
  destruct (attempt <? retries)%Z; reflexivity.
Qed.
End RetrySteps.

Lemma error_class (e : JsError) :
  isFatal e = true \/ isRateLimit e = true \/ isTransient e = true.
Proof.
  unfold isRateLimit, isTransient.
  destruct (isFatal e), (statusIs e 429); auto.
Qed.

Lemma retryLoop_calls_bounded (delay : Z) (api : nat -> ApiOutcome)
      (md : option string) (diff : string) (retries : Z)
      (remaining : nat) (attempt : Z) (lastError : Thrown) :
  (remoteCalls (events (retryLoop delay (createCompletion api md diff) retries
                                  remaining attempt lastError)) <= remaining)%nat.
Proof.
  revert attempt lastError.
  induction remaining as [|k IH]; intros attempt lastError; [cbn; lia|].
  destruct (api (Z.to_nat attempt)) as [c|e] eqn:Hapi.
  - rewrite (retry_success _ _ _ _ _ _ _ _ c Hapi). cbn. lia.
  - destruct (error_class e) as [Hc|[Hc|Hc]].
    + rewrite (retry_fatal _ _ _ _ _ _ _ _ e Hapi Hc). cbn. lia.
    + rewrite (retry_rate_limited _ _ _ _ _ _ _ _ e Hapi Hc).
      change (RemoteCall md diff :: Sleep (delay * attempt * 2) :: ?l)
        with ([RemoteCall md diff; Sleep (delay * attempt * 2)] ++ l).
      cbn [events]. rewrite remoteCalls_app.
      specialize (IH (attempt + 1)%Z (ThrownError e)). cbn. cbn in IH. lia.
    + rewrite (retry_transient _ _ _ _ _ _ _ _ e Hapi Hc).
      cbn [events].
      change (RemoteCall md diff :: ?l) with ([RemoteCall md diff] ++ l).
      rewrite !remoteCalls_app.
      specialize (IH (attempt + 1)%Z (ThrownError e)).
      destruct (attempt <? retries)%Z; cbn; cbn in IH; lia.
Qed.

(** C6. An operation that fails with status 401 or 403 on attempt 1 is
    called once and its error is thrown at once, whatever the budget
    [retries >= 1]; and the operation of the script is never called more
    often than the budget allows, whatever the remote service answers. *)
Theorem callWithRetry_fatal_once_and_bounded :
  (forall (A : Type) (delay : Z) (fn : nat -> M A) (retries : Z) (e : JsError),
     (1 <= retries)%Z ->
     outcome (fn 1%nat) = Throw (ThrownError e) ->
     isFatal e = true ->
     callWithRetry delay fn retries = Run (events (fn 1%nat)) (Throw (ThrownError e)))
  /\ (forall (delay : Z) (api : nat -> ApiOutcome) (md : option string)
             (diff : string) (retries : Z),
        (remoteCalls (events (callWithRetry delay (createCompletion api md diff) retries))
         <= Z.to_nat retries)%nat).
Proof.
  split.
  - intros A delay fn retries e Hr Hout Hf. unfold callWithRetry.
    destruct (Z.to_nat retries) as [|k] eqn:Hk; [lia|].
    cbn [retryLoop]. change (Z.to_nat 1) with 1%nat.
    unfold tryCatch. rewrite Hout.
    unfold isFatal in Hf. rewrite Hf. cbn. by rewrite app_nil_r.
  - intros. apply retryLoop_calls_bounded.
Qed.

Lemma callWithRetry_unauthorized_once :
  callWithRetry 1000 (createCompletion (fun _ => Rejects unauthorized)
                                       (Some "gpt-4o-mini") distDiff) 3
  = Run [RemoteCall (Some "gpt-4o-mini") distDiff] (Throw (ThrownError unauthorized)).
Proof.
  apply (proj1 callWithRetry_fatal_once_and_bounded
               Completion 1000%Z
               (createCompletion (fun _ => Rejects unauthorized)
                                 (Some "gpt-4o-mini") distDiff)
               3%Z unauthorized);
    [lia | reflexivity | reflexivity].
Defined.

(** C7. Two transient failures, then success, under a budget of 3 and a
    positive base delay: the operation is called three times, the first wait
    is [delay * 1], the second [delay * 2], which is longer, and the value
    of the third call is returned. *)
Theorem callWithRetry_third_time_lucky
        (delay : Z) (api : nat -> ApiOutcome) (md : option string) (diff : string)
        (e1 e2 : JsError) (c : Completion) :
  (0 < delay)%Z ->
  api 1%nat = Rejects e1 -> isTransient e1 = true ->
  api 2%nat = Rejects e2 -> isTransient e2 = true ->
  api 3%nat = Resolves c ->
  let run := callWithRetry delay (createCompletion api md diff) 3 in
  run = Run [RemoteCall md diff; Sleep (delay * 1);
             RemoteCall md diff; Sleep (delay * 2);
             RemoteCall md diff] (Next c)
  /\ remoteCalls (events run) = 3%nat
  /\ sleeps (events run) = [(delay * 1)%Z; (delay * 2)%Z]
  /\ (delay * 1 < delay * 2)%Z.
Proof.
  intros Hd H1 T1 H2 T2 H3 run.
  assert (run = Run [RemoteCall md diff; Sleep (delay * 1);
                     RemoteCall md diff; Sleep (delay * 2);
                     RemoteCall md diff] (Next c)) as ->.
  { subst run. unfold callWithRetry. change (Z.to_nat 3) with 3%nat.
    rewrite (retry_transient _ _ _ _ _ _ 1 _ e1 H1 T1).
    change (1 + 1)%Z with 2%Z.
    rewrite (retry_transient _ _ _ _ _ _ 2 _ e2 H2 T2).
    change (2 + 1)%Z with 3%Z.
    rewrite (retry_success _ _ _ _ _ _ 3 _ c H3). reflexivity. }
  repeat split; lia.
Qed.

Lemma callWithRetry_flaky_service :
  let run := callWithRetry 1000 (createCompletion flakyService (Some "gpt-4o-mini") distDiff) 3 in
  run = Run [RemoteCall (Some "gpt-4o-mini") distDiff; Sleep (1000 * 1);
             RemoteCall (Some "gpt-4o-mini") distDiff; Sleep (1000 * 2);
             RemoteCall (Some "gpt-4o-mini") distDiff]
            (Next (Content {| is_passed := true; reason := "";
                              message := "fix: retry the upload" |}))
  /\ remoteCalls (events run) = 3%nat
  /\ sleeps (events run) = [(1000 * 1)%Z; (1000 * 2)%Z]
  /\ (1000 * 1 < 1000 * 2)%Z.
Proof.
  apply (callWithRetry_third_time_lucky 1000 flakyService (Some "gpt-4o-mini") distDiff
           timedOut timedOut);
    [lia | reflexivity | reflexivity | reflexivity | reflexivity | reflexivity].
Defined.

(** ** The invocation gate *)

(** C1. With a commit source of [message], [merge], [squash] or [commit] the
    script prints why it skips the review and exits with code 0: the run has
    no remote call and no write to the commit message file. *)
Theorem gate_skips_without_review (w : World) (tag : string) :
  commitSource w = Some tag ->
  tag = "message" \/ tag = "merge" \/ tag = "squash" \/ tag = "commit" ->
  main w = Run [Console (MsgSkipReview tag)] (Exit 0)
  /\ exitCodeOf (statusOf (main w)) = Some 0%Z
  /\ remoteCalls (events (main w)) = 0%nat
  /\ written (events (main w)) = [].
Proof.
  intros Hsrc Htag.
  assert (main w = Run [Console (MsgSkipReview tag)] (Exit 0)) as ->.
  { unfold main. rewrite Hsrc.
    destruct Htag as [-> | [-> | [-> | ->]]]; reflexivity. }
  repeat split.
Qed.

Lemma gate_skips_merge :
  main mergeWorld = Run [Console (MsgSkipReview "merge")] (Exit 0)
  /\ exitCodeOf (statusOf (main mergeWorld)) = Some 0%Z
  /\ remoteCalls (events (main mergeWorld)) = 0%nat
  /\ written (events (main mergeWorld)) = [].
Proof.
  apply (gate_skips_without_review mergeWorld "merge"); [reflexivity|auto].
Defined.

(** ** The path pattern matcher on directory and rooted patterns *)

(** C2. The pattern [dist/] does not ignore the files under [dist/]:
    [patternToRegex] cuts two characters off the end of the source, the
    slash and the [t] before it, so the rule looks for a segment [dis].  A
    staged change of [dist/bundle.js] alone passes the filter unchanged and
    is sent to the remote service. *)
Theorem dist_dir_pattern_keeps_dist_files :
  regexSource "dist/" = "(^|/)dis(/|$)"
  /\ shouldIgnoreFile "dist/bundle.js" ["dist/"] = Val false
  /\ shouldIgnoreFile "dis/bundle.js" ["dist/"] = Val true
  /\ loadReviewIgnore distIgnoredWorld = ["dist/"]
  /\ filterDiff distDiff ["dist/"] = Val distDiff
  /\ remoteCalls (events (main distIgnoredWorld)) = 1%nat
  /\ written (events (main distIgnoredWorld))
     = [WriteFile (Some ".git/COMMIT_EDITMSG") "chore: rebuild bundle"].
Proof. repeat split; vm_compute; reflexivity. Qed.

(** C3. The pattern [/dist] does not match [dist/x.js]: [patternToRegex]
    cuts two characters off the front of the source, the slash and the [d]
    after it, so the rule is anchored at the start of the path but looks
    for [ist] there. *)
Theorem rooted_pattern_loses_first_character :
  regexSource "/dist" = "^ist($|/)"
  /\ shouldIgnoreFile "dist/x.js" ["/dist"] = Val false
  /\ shouldIgnoreFile "src/dist/x.js" ["/dist"] = Val false
  /\ shouldIgnoreFile "ist/x.js" ["/dist"] = Val true
  /\ shouldIgnoreFile "dist/x.js" ["dist"] = Val true
  /\ shouldIgnoreFile "src/dist/x.js" ["dist"] = Val true.
Proof. repeat split; vm_compute; reflexivity. Qed.

(** ** The provider configuration *)

Lemma or_first (a b : option string) (s : string) :
  a = Some s -> s <> "" -> Js.or a b = Some s.
Proof.
  intros -> Hs. unfold Js.or, Js.truthy.
  destruct (String.eqb_spec s ""); [done|reflexivity].
Qed.

Lemma or_second (a b : option string) : a = None -> Js.or a b = b.
Proof. by intros ->. Qed.

(** An explicit base URL wins, whatever the provider. *)
Lemma getAIConfig_base_url_override (env : gmap string string) (url : string) :
  env !! "OPENAI_BASE_URL" = Some url -> url <> "" ->
  cfgBaseURL (getAIConfig env) = Some url.
Proof. intros H Hne. unfold getAIConfig. cbn [cfgBaseURL]. by apply or_first. Qed.

(** The preset of the provider is used when there is no override. *)
Lemma getAIConfig_deepseek_preset (env : gmap string string) :
  env !! "AI_PROVIDER" = Some "deepseek" -> env !! "OPENAI_BASE_URL" = None ->
  cfgBaseURL (getAIConfig env) = Some "https://api.deepseek.com".
Proof.
  intros Hp Hu. unfold getAIConfig. cbn [cfgBaseURL]. rewrite Hp, Hu. reflexivity.
Qed.

(** The credential is read under the key of the preset first, then under
    [OPENAI_API_KEY]. *)
Lemma getAIConfig_credential (env : gmap string string) (p : Preset) :
  choosePreset (provider (getAIConfig env)) = Some p ->
  apiKey (getAIConfig env) = Js.or (env !! envKey p) (env !! "OPENAI_API_KEY").
Proof.
  unfold getAIConfig. cbn [provider apiKey]. intros ->. reflexivity.
Qed.

(** A name that is neither a preset nor a member of [Object.prototype]
    selects the preset of OpenAI. *)
Lemma choosePreset_unknown (name : string) :
  AI_PROVIDERS !! name = None ->
  existsb (String.eqb name) objectPrototypeKeys = false ->
  choosePreset name = Some openaiPreset.
Proof.
  intros H1 H2. unfold choosePreset, providerMember. by rewrite H1, H2.
Qed.

Lemma lowerChar_idempotent (c : ascii) : Js.lowerChar (Js.lowerChar c) = Js.lowerChar c.
Proof. destruct c as [[] [] [] [] [] [] [] []]; reflexivity. Qed.

Lemma toLowerCase_idempotent (s : string) :
  Js.toLowerCase (Js.toLowerCase s) = Js.toLowerCase s.
Proof.
  induction s as [|c r IH]; [reflexivity|].
  simpl. by rewrite lowerChar_idempotent, IH.
Qed.

Lemma providerName_lower (p : string) :
  Js.toLowerCase (default "" (Js.or (Some (Js.toLowerCase p)) (Some "openai")))
  = Js.toLowerCase (default "" (Js.or (Some p) (Some "openai"))).
Proof.
  destruct p as [|c r]; [reflexivity|].
  change (Js.or (Some (String c r)) (Some "openai")) with (Some (String c r)).
  change (Js.or (Some (Js.toLowerCase (String c r))) (Some "openai"))
    with (Some (Js.toLowerCase (String c r))).
  cbn [default]. apply toLowerCase_idempotent.
Qed.

Lemma choosePreset_cases (name : string) :
  choosePreset name = Some openaiPreset
  \/ choosePreset name = Some deepseekPreset
  \/ choosePreset name = None.
Proof.
  unfold choosePreset, providerMember.
  destruct (AI_PROVIDERS !! name) as [p|] eqn:Hp.
  - unfold AI_PROVIDERS in Hp.
    apply lookup_insert_Some in Hp as [[_ <-]|[_ Hp]]; [auto|].
    apply lookup_insert_Some in Hp as [[_ <-]|[_ Hp]]; [auto|].
    by rewrite lookup_empty in Hp.
  - destruct (existsb (String.eqb name) objectPrototypeKeys); auto.
Qed.

(** The provider name is read without regard to case. *)
Lemma getAIConfig_case_insensitive (env : gmap string string) (p : string) :
  getAIConfig (<["AI_PROVIDER" := Js.toLowerCase p]> env)
  = getAIConfig (<["AI_PROVIDER" := p]> env).
Proof.
  unfold getAIConfig. rewrite !lookup_insert_eq, providerName_lower.
  set (name := Js.toLowerCase (default "" (Js.or (Some p) (Some "openai")))).
  rewrite !(lookup_insert_ne _ "AI_PROVIDER") by done.
  f_equal. f_equal. unfold envAt.
  destruct (choosePreset_cases name) as [-> | [-> | ->]]; cbn;
    by rewrite !lookup_insert_ne by done.
Qed.

(** C8. With [AI_PROVIDER=constructor] the lookup [AI_PROVIDERS[provider]]
    finds the member [constructor] that every object inherits, which is a
    true value, so the preset of OpenAI is not substituted: the resolved base
    URL and model are [undefined], where an unrecognized name such as
    [nope] resolves to the default preset. *)
Theorem inherited_name_is_no_preset :
  getAIConfig (<["AI_PROVIDER" := "constructor"]> ∅)
  = {| provider := "constructor"; apiKey := None; cfgBaseURL := None; model := None |}
  /\ getAIConfig (<["AI_PROVIDER" := "nope"]> ∅)
     = {| provider := "nope"; apiKey := None;
          cfgBaseURL := Some "https://api.openai.com/v1";
          model := Some "gpt-4o-mini" |}
  /\ getAIConfig (<["AI_PROVIDER" := "DeepSeek"]> ∅)
     = {| provider := "deepseek"; apiKey := None;
          cfgBaseURL := Some "https://api.deepseek.com";
          model := Some "deepseek-chat" |}.
Proof. repeat split; vm_compute; reflexivity. Qed.

(** ** What a run can write *)

Lemma written_app (xs ys : list Event) : written (xs ++ ys) = written xs ++ written ys.
Proof. apply List.filter_app. Qed.

Lemma mbind_next {A B : Type} (m : M A) (f : A -> M B) (a : A) :
  outcome m = Next a ->
  (m ≫= f) = Run (events m ++ events (f a)) (outcome (f a)).
Proof. intros H. unfold mbind, M_bind. by rewrite H. Qed.

Lemma mbind_throw {A B : Type} (m : M A) (f : A -> M B) (t : Thrown) :
  outcome m = Throw t -> (m ≫= f) = Run (events m) (Throw t).
Proof. intros H. unfold mbind, M_bind. by rewrite H. Qed.

Lemma written_bind {A B : Type} (m : M A) (f : A -> M B) :
  written (events m) = [] -> (forall a, written (events (f a)) = []) ->
  written (events (m ≫= f)) = [].
Proof.
  intros Hm Hf. unfold mbind, M_bind.
  destruct (outcome m) as [a| | |]; cbn [events]; [|done..].
  by rewrite written_app, Hm, Hf.
Qed.

Lemma written_tryCatch {A : Type} (m : M A) (h : Thrown -> M A) :
  written (events m) = [] -> (forall t, written (events (h t)) = []) ->
  written (events (tryCatch m h)) = [].
Proof.
  intros Hm Hh. unfold tryCatch.
  destruct (outcome m) as [a|t| |]; cbn [events]; [done| |done..].
  by rewrite written_app, Hm, Hh.
Qed.

Lemma written_retryLoop {A : Type} (delay : Z) (fn : nat -> M A) (retries : Z)
      (remaining : nat) (attempt : Z) (lastError : Thrown) :
  (forall n, written (events (fn n)) = []) ->
  written (events (retryLoop delay fn retries remaining attempt lastError)) = [].
Proof.
  intros Hfn. revert attempt lastError.
  induction remaining as [|k IH]; intros attempt lastError; [reflexivity|].
  cbn [retryLoop]. apply written_tryCatch; [apply Hfn|].
  intros [|e]; [reflexivity|].
  destruct (statusIs e 401 || statusIs e 403); [reflexivity|].
  destruct (statusIs e 429).
  - apply written_bind; [reflexivity|]. intros _. apply IH.
  - apply written_bind; [|intros _; apply IH].
    destruct (attempt <? retries)%Z; reflexivity.
Qed.

Lemma written_createCompletion (api : nat -> ApiOutcome) (md : option string)
      (diff : string) (n : nat) :
  written (events (createCompletion api md diff n)) = [].
Proof. unfold createCompletion. destruct (api n); reflexivity. Qed.

Lemma written_fetchVerdict (w : World) : written (events (fetchVerdict w)) = [].
Proof.
  unfold fetchVerdict.
  apply written_bind; [reflexivity|]. intros _.
  apply written_bind; [by destruct (stagedDiff w)|]. intros diff.
  apply written_bind; [by destruct (String.eqb (Js.trim diff) "")|]. intros _.
  apply written_bind; [by destruct (filterDiff diff (loadReviewIgnore w))|].
  intros diff'.
  apply written_bind; [by destruct (String.eqb (Js.trim diff') "")|]. intros _.
  apply written_bind.
  { destruct (skipBuild (CONFIG (env w))); [reflexivity|].
    by destruct (buildPasses w). }
  intros _.
  apply written_bind; [by destruct (_ <? _)%Z|]. intros _.
  apply written_bind; [reflexivity|]. intros _.
  apply written_bind.
  - unfold callWithRetry. apply written_retryLoop. apply written_createCompletion.
  - by intros [result|e].
Qed.

Lemma main_reviews (w : World) :
  gateSkips (commitSource w) = false ->
  Js.truthy (apiKey (getAIConfig (env w))) = true ->
  main w = runAIReview w.
Proof. intros Hg Hk. unfold main. by rewrite Hg, Hk. Qed.

(** ** The verdict *)

Lemma handleResult_passed (w : World) (result : Verdict) (path : string) :
  is_passed result = true -> commitMsgFile w = Some path -> writeFailure w = None ->
  handleResult w result
  = Run (WriteFile (Some path) (composeMessage result)
           :: Console MsgReviewPassed
           :: Console (MsgCommitMessage (message result))
           :: (if nonBlank (reason result)
               then [Console (MsgSuggestion (reason result))] else []))
        (Exit 0).
Proof.
  intros Hp Hf Hw. unfold handleResult, writeFileSync. rewrite Hp, Hf, Hw.
  destruct (nonBlank (reason result)); reflexivity.
Qed.

Lemma handleResult_failed (w : World) (result : Verdict) :
  is_passed result = false ->
  handleResult w result
  = Run [Console MsgReviewFailed; Console (MsgReason (reason result));
         Console MsgNoVerifyHint] (Exit 1).
Proof. intros Hp. unfold handleResult. by rewrite Hp. Qed.

(** C9, as the script has it. Once the run has the parsed verdict: if
    [is_passed] holds and the file can be written, the file receives the
    message of the verdict as it came, followed by the reason as a comment
    block when the reason is not blank, and the process exits with code 0;
    nothing checks the message.  If [is_passed] does not hold, nothing is
    written, the reason is printed and the process exits with code 1. *)
Theorem verdict_decides_write_and_exit (w : World) (result : Verdict) :
  gateSkips (commitSource w) = false ->
  Js.truthy (apiKey (getAIConfig (env w))) = true ->
  outcome (fetchVerdict w) = Next result ->
  (is_passed result = true ->
   forall path, commitMsgFile w = Some path -> writeFailure w = None ->
     written (events (main w)) = [WriteFile (Some path) (composeMessage result)]
     /\ (nonBlank (reason result) = false -> composeMessage result = message result)
     /\ statusOf (main w) = Exited 0)
  /\ (is_passed result = false ->
      written (events (main w)) = []
      /\ In (Console (MsgReason (reason result))) (events (main w))
      /\ statusOf (main w) = Exited 1).
Proof.
  intros Hg Hk Hv. rewrite (main_reviews w Hg Hk). unfold runAIReview.
  rewrite (mbind_next _ _ _ Hv). split.
  - intros Hp path Hf Hw. rewrite (handleResult_passed w result path Hp Hf Hw).
    unfold tryCatch. cbn [outcome events]. rewrite written_app, written_fetchVerdict.
    repeat split.
    + by destruct (nonBlank (reason result)).
    + unfold composeMessage. by intros ->.
  - intros Hp. rewrite (handleResult_failed w result Hp).
    unfold tryCatch. cbn [outcome events]. rewrite written_app, written_fetchVerdict.
    repeat split. apply in_or_app. right. cbn. auto.
Qed.

Lemma verdict_decides_sample_runs :
  (written (events (main emptyMessageWorld)) = [WriteFile (Some ".git/COMMIT_EDITMSG") ""]
   /\ statusOf (main emptyMessageWorld) = Exited 0)
  /\ (written (events (main rejectedWorld)) = []
      /\ In (Console (MsgReason "hardcoded secret detected")) (events (main rejectedWorld))
      /\ statusOf (main rejectedWorld) = Exited 1).
Proof.
  split.
  - assert (gateSkips (commitSource emptyMessageWorld) = false) as Hg by reflexivity.
    assert (Js.truthy (apiKey (getAIConfig (env emptyMessageWorld))) = true) as Hk
        by (vm_compute; reflexivity).
    assert (outcome (fetchVerdict emptyMessageWorld)
            = Next {| is_passed := true; reason := ""; message := "" |}) as Hv
        by (vm_compute; reflexivity).
    destruct (proj1 (verdict_decides_write_and_exit emptyMessageWorld _ Hg Hk Hv)
                    eq_refl ".git/COMMIT_EDITMSG" eq_refl eq_refl) as (Hw & _ & Hs).
    split; [exact Hw|exact Hs].
  - assert (gateSkips (commitSource rejectedWorld) = false) as Hg by reflexivity.
    assert (Js.truthy (apiKey (getAIConfig (env rejectedWorld))) = true) as Hk
        by (vm_compute; reflexivity).
    assert (outcome (fetchVerdict rejectedWorld)
            = Next {| is_passed := false; reason := "hardcoded secret detected";
                      message := "" |}) as Hv
        by (vm_compute; reflexivity).
    exact (proj2 (verdict_decides_write_and_exit rejectedWorld _ Hg Hk Hv) eq_refl).
Defined.

(** C9, as the specification has it, fails: a verdict that passes with an
    empty message makes the script write an empty commit message. *)
Lemma passed_verdict_with_empty_message :
  api emptyMessageWorld 1%nat
  = Resolves (Content {| is_passed := true; reason := ""; message := "" |})
  /\ written (events (main emptyMessageWorld))
     = [WriteFile (Some ".git/COMMIT_EDITMSG") ""]
  /\ statusOf (main emptyMessageWorld) = Exited 0.
Proof. repeat split; vm_compute; reflexivity. Qed.

(** ** Errors at the boundary of [runAIReview] *)

Lemma onError_error_object (e : JsError) :
  outcome (onError (ThrownError e)) = Exit 0
  /\ written (events (onError (ThrownError e))) = []
  /\ In (Console MsgAllowCommit) (events (onError (ThrownError e))).
Proof.
  unfold onError.
  destruct (bool_decide (err_code e = Some "ECONNREFUSED")
            || bool_decide (err_code e = Some "ETIMEDOUT"));
    [|destruct (statusIs e 401); [|destruct (statusIs e 429)]];
    cbn; auto.
Qed.

(** An error object thrown on the way to the verdict ends the run with
    code 0 and no write. *)
Lemma runAIReview_fail_open (w : World) (e : JsError) :
  gateSkips (commitSource w) = false ->
  Js.truthy (apiKey (getAIConfig (env w))) = true ->
  outcome (fetchVerdict w) = Throw (ThrownError e) ->
  statusOf (main w) = Exited 0
  /\ written (events (main w)) = []
  /\ In (Console MsgAllowCommit) (events (main w)).
Proof.
  intros Hg Hk Ht. rewrite (main_reviews w Hg Hk). unfold runAIReview.
  rewrite (mbind_throw _ _ _ Ht). unfold tryCatch. cbn [outcome events].
  destruct (onError_error_object e) as (Ho & Hw & Hin).
  unfold statusOf. cbn [outcome events]. rewrite Ho, written_app, Hw, written_fetchVerdict.
  repeat split. apply in_or_app. by right.
Qed.

Lemma outcome_bind {A B : Type} (m : M A) (f : A -> M B) :
  outcome (m ≫= f)
  = match outcome m with
    | Next a => outcome (f a)
    | Throw t => Throw t
    | Exit c => Exit c
    | Unmodelled => Unmodelled
    end.
Proof. unfold mbind, M_bind. by destruct (outcome m). Qed.



(** The filter throws nothing but the error of a malformed expression. *)
Lemma patternToRegex_cons (c : ascii) (rest : string) :
  patternToRegex (String c rest)
  = if Ascii.eqb c "!"
    then r ← patternToRegex rest; Val {| regex := regex r; negated := true |}
    else r ← newRegExp (regexSource (String c rest));
         Val {| regex := r; negated := false |}.
Proof. destruct c as [[] [] [] [] [] [] [] []]; reflexivity. Qed.






Lemma mbind_exit {A B : Type} (m : M A) (f : A -> M B) (c : Z) :
  outcome m = Exit c -> (m ≫= f) = Run (events m) (Exit c).
Proof. intros H. unfold mbind, M_bind. by rewrite H. Qed.

Lemma mbind_unmodelled {A B : Type} (m : M A) (f : A -> M B) :
  outcome m = Unmodelled -> (m ≫= f) = Run (events m) Unmodelled.
Proof. intros H. unfold mbind, M_bind. by rewrite H. Qed.

Lemma handleResult_write_throws (w : World) (result : Verdict) :
  is_passed result = true ->
  commitMsgFile w = None \/ writeFailure w <> None ->
  exists e, handleResult w result = Run [] (Throw (ThrownError e)).
Proof.
  intros Hp Hw. unfold handleResult, writeFileSync. rewrite Hp.
  destruct (commitMsgFile w) as [path|]; [|by eexists].
  destruct (writeFailure w) as [e|]; [by eexists|].
  by destruct Hw.
Qed.


(** C10. With [AI_REVIEW_MAX_RETRIES=-1] the loop of [callWithRetry] has no
    turn and throws its [lastError], which is still [undefined]; the [catch]
    block of [runAIReview] reads [error.code] of it, and the [TypeError]
    of that read leaves [runAIReview] as an unhandled rejection: the process
    does not exit with code 0. *)
Theorem negative_retry_budget_escapes_catch :
  maxRetries (CONFIG (env negativeBudgetWorld)) = (-1)%Z
  /\ main negativeBudgetWorld
     = Run [GitDiffCached; Console MsgReviewing] (Throw (ThrownError typeError))
  /\ statusOf (main negativeBudgetWorld) = UnhandledRejection (ThrownError typeError)
  /\ exitCodeOf (statusOf (main negativeBudgetWorld)) = Some 1%Z.
Proof. repeat split; vm_compute; reflexivity. Qed.

(** * Further properties of the script *)

(** ** The course of the retry loop *)

Lemma sleeps_app (xs ys : list Event) : sleeps (xs ++ ys) = sleeps xs ++ sleeps ys.
Proof. apply omap_app. Qed.

Lemma nonfatal_class (e : JsError) :
  isFatal e = false -> isRateLimit e = true \/ isTransient e = true.
Proof.
  intros H. unfold isRateLimit, isTransient. rewrite H.
  destruct (statusIs e 429); auto.
Qed.

(** One failed attempt that does not end the loop: one call, then the rest
    of the loop with the error as [lastError]. *)
Lemma retry_nonfatal_step (delay : Z) (api : nat -> ApiOutcome) (md : option string)
      (diff : string) (retries : Z) (remaining i : nat) (lastError : Thrown) (e : JsError) :
  api i = Rejects e -> isFatal e = false ->
  let rest := retryLoop delay (createCompletion api md diff) retries remaining
                        (Z.of_nat (S i)) (ThrownError e) in
  let run := retryLoop delay (createCompletion api md diff) retries (S remaining)
                       (Z.of_nat i) lastError in
  outcome run = outcome rest
  /\ remoteCalls (events run) = S (remoteCalls (events rest))
  /\ exists waits, events run = RemoteCall md diff :: waits ++ events rest
                   /\ Forall (fun ev => isSleep ev = true) waits.
Proof.
  intros Hapi Hnf rest run. subst rest run.
  rewrite <- (Nat2Z.id i) in Hapi.
  replace (Z.of_nat (S i)) with (Z.of_nat i + 1)%Z by lia.
  destruct (nonfatal_class e Hnf) as [Hc|Hc].
  - rewrite (retry_rate_limited _ _ _ _ _ _ _ _ e Hapi Hc). cbn [outcome events].
    repeat split.
    exists [Sleep (delay * Z.of_nat i * 2)]. split; [reflexivity|]. by repeat constructor.
  - rewrite (retry_transient _ _ _ _ _ _ _ _ e Hapi Hc). cbn [outcome events].
    repeat split.
    + change (RemoteCall md diff :: ?l) with ([RemoteCall md diff] ++ l).
      rewrite !remoteCalls_app. by destruct (Z.of_nat i <? retries)%Z.
    + eexists. split; [reflexivity|].
      destruct (Z.of_nat i <? retries)%Z; by repeat constructor.
Qed.

Lemma retryLoop_decisive (delay : Z) (api : nat -> ApiOutcome) (md : option string)
      (diff : string) (retries : Z) (d : nat) :
  forall (i remaining : nat) (lastError : Thrown),
    (forall n, (i <= n < i + d)%nat -> retryable api n) ->
    (d < remaining)%nat ->
    let run := retryLoop delay (createCompletion api md diff) retries remaining
                         (Z.of_nat i) lastError in
    (forall c, api (i + d)%nat = Resolves c ->
               outcome run = Next c /\ remoteCalls (events run) = S d)
    /\ (forall e, api (i + d)%nat = Rejects e -> isFatal e = true ->
                  outcome run = Throw (ThrownError e) /\ remoteCalls (events run) = S d).
Proof.
  induction d as [|d IH]; intros i remaining lastError Hfail Hlt run; subst run;
    (destruct remaining as [|r]; [lia|]).
  - rewrite Nat.add_0_r. split.
    + intros c Hc. rewrite <- (Nat2Z.id i) in Hc.
      by rewrite (retry_success _ _ _ _ _ _ _ _ c Hc).
    + intros e He Hf. rewrite <- (Nat2Z.id i) in He.
      by rewrite (retry_fatal _ _ _ _ _ _ _ _ e He Hf).
  - destruct (Hfail i ltac:(lia)) as (e & He & Hnf).
    destruct (retry_nonfatal_step delay api md diff retries r i lastError e He Hnf)
      as (Hout & Hcalls & _).
    rewrite Hout, Hcalls.
    replace (i + S d)%nat with (S i + d)%nat by lia.
    destruct (IH (S i) r (ThrownError e)) as [Hok Hfatal]; [intros n Hn; apply Hfail; lia|lia|].
    split.
    + intros c Hc. destruct (Hok c Hc) as [-> ->]. done.
    + intros e' He' Hf'. destruct (Hfatal e' He' Hf') as [-> ->]. done.
Qed.

(** X1. The loop stops at the first attempt that succeeds or fails with
    status 401 or 403: when the attempts before attempt [k] are rejected with
    other errors and [k] is within the budget, the operation is called [k]
    times, and the value, or the fatal error, of attempt [k] is the result. *)
Theorem callWithRetry_stops_at_first_decisive_attempt
        (delay : Z) (api : nat -> ApiOutcome) (md : option string) (diff : string)
        (retries : Z) (k : nat) :
  (1 <= k)%nat -> (Z.of_nat k <= retries)%Z ->
  (forall n, (1 <= n < k)%nat -> retryable api n) ->
  let run := callWithRetry delay (createCompletion api md diff) retries in
  (forall c, api k = Resolves c ->
             outcome run = Next c /\ remoteCalls (events run) = k)
  /\ (forall e, api k = Rejects e -> isFatal e = true ->
                outcome run = Throw (ThrownError e) /\ remoteCalls (events run) = k).
Proof.
  intros Hk Hbudget Hfail run. subst run. unfold callWithRetry.
  change 1%Z with (Z.of_nat 1).
  destruct (retryLoop_decisive delay api md diff retries (k - 1) 1 (Z.to_nat retries)
                               ThrownUndefined) as [Hok Hfatal].
  - intros n Hn. apply Hfail. lia.
  - lia.
  - replace (1 + (k - 1))%nat with k in * by lia.
    replace (S (k - 1)) with k in * by lia. by split.
Qed.

Lemma callWithRetry_second_attempt_succeeds :
  let run := callWithRetry 1000 (createCompletion
                                   (fun n => if (n <? 2)%nat then Rejects timedOut
                                             else approve "docs: typo")
                                   (Some "gpt-4o-mini") distDiff) 5 in
  outcome run = Next (Content {| is_passed := true; reason := ""; message := "docs: typo" |})
  /\ remoteCalls (events run) = 2%nat.
Proof.
  refine (proj1 (callWithRetry_stops_at_first_decisive_attempt
                   1000 _ (Some "gpt-4o-mini") distDiff 5 2 _ _ _) _ eq_refl);
    [lia | lia |].
  intros n Hn. assert (n = 1%nat) as -> by lia. exists timedOut. by split.
Defined.

Lemma retryLoop_transient_waits (delay : Z) (api : nat -> ApiOutcome) (md : option string)
      (diff : string) (retries : Z) (remaining : nat) :
  forall (i : nat) (lastError : Thrown),
    Z.of_nat (i + remaining) = (retries + 1)%Z ->
    allRejected api isTransient i (i + remaining - 1) ->
    sleeps (events (retryLoop delay (createCompletion api md diff) retries remaining
                              (Z.of_nat i) lastError))
    = map (fun n => (delay * Z.of_nat n)%Z) (seq i (remaining - 1)).
Proof.
  induction remaining as [|r IH]; intros i lastError Hsum Hall; [reflexivity|].
  destruct (Hall i ltac:(lia)) as (e & He & Ht).
  rewrite <- (Nat2Z.id i) in He.
  rewrite (retry_transient _ _ _ _ _ _ _ _ e He Ht). cbn [events].
  change (RemoteCall md diff :: ?l) with ([RemoteCall md diff] ++ l).
  rewrite !sleeps_app. replace (Z.of_nat i + 1)%Z with (Z.of_nat (S i)) by lia.
  rewrite IH; [|lia|intros n Hn; apply Hall; lia].
  destruct r as [|r'].
  - replace (Z.of_nat i <? retries)%Z with false by (symmetry; apply Z.ltb_ge; lia).
    reflexivity.
  - replace (Z.of_nat i <? retries)%Z with true by (symmetry; apply Z.ltb_lt; lia).
    cbn. by rewrite Nat.sub_0_r.
Qed.

Lemma retryLoop_rate_limited_waits (delay : Z) (api : nat -> ApiOutcome) (md : option string)
      (diff : string) (retries : Z) (remaining : nat) :
  forall (i : nat) (lastError : Thrown),
    allRejected api isRateLimit i (i + remaining - 1) ->
    sleeps (events (retryLoop delay (createCompletion api md diff) retries remaining
                              (Z.of_nat i) lastError))
    = map (fun n => (delay * Z.of_nat n * 2)%Z) (seq i remaining).
Proof.
  induction remaining as [|r IH]; intros i lastError Hall; [reflexivity|].
  destruct (Hall i ltac:(lia)) as (e & He & Ht).
  rewrite <- (Nat2Z.id i) in He.
  rewrite (retry_rate_limited _ _ _ _ _ _ _ _ e He Ht). cbn [events].
  change (RemoteCall md diff :: Sleep ?w :: ?l) with ([RemoteCall md diff; Sleep w] ++ l).
  rewrite sleeps_app. replace (Z.of_nat i + 1)%Z with (Z.of_nat (S i)) by lia.
  rewrite IH; [reflexivity|]. intros n Hn. apply Hall. lia.
Qed.

Lemma retryLoop_exhausted (delay : Z) (api : nat -> ApiOutcome) (md : option string)
      (diff : string) (retries : Z) (remaining : nat) :
  forall (i : nat) (lastError : Thrown) (final : JsError),
    (forall n, (i <= n < i + S remaining)%nat -> retryable api n) ->
    api (i + remaining)%nat = Rejects final ->
    let run := retryLoop delay (createCompletion api md diff) retries (S remaining)
                         (Z.of_nat i) lastError in
    outcome run = Throw (ThrownError final)
    /\ remoteCalls (events run) = S remaining.
Proof.
  induction remaining as [|r IH]; intros i lastError final Hall Hfinal run; subst run.
  - rewrite Nat.add_0_r in Hfinal.
    destruct (Hall i ltac:(lia)) as (e & He & Hnf).
    assert (e = final) as -> by congruence.
    destruct (retry_nonfatal_step delay api md diff retries 0 i lastError final He Hnf)
      as (-> & -> & _). by split.
  - destruct (Hall i ltac:(lia)) as (e & He & Hnf).
    destruct (retry_nonfatal_step delay api md diff retries (S r) i lastError e He Hnf)
      as (-> & -> & _).
    destruct (IH (S i) (ThrownError e) final) as [-> ->].
    + intros n Hn. apply Hall. lia.
    + by replace (S i + r)%nat with (i + S r)%nat by lia.
    + by split.
Qed.

(** X2. When every attempt of a budget of at least one is rejected with an
    error other than 401 and 403, the operation is called as often as the
    budget says, and the error that is thrown is the one of the last
    attempt. *)
Theorem callWithRetry_exhausted_throws_last_error
        (delay : Z) (api : nat -> ApiOutcome) (md : option string) (diff : string)
        (retries : Z) (final : JsError) :
  (1 <= retries)%Z ->
  (forall n, (1 <= n <= Z.to_nat retries)%nat -> retryable api n) ->
  api (Z.to_nat retries) = Rejects final ->
  let run := callWithRetry delay (createCompletion api md diff) retries in
  outcome run = Throw (ThrownError final)
  /\ remoteCalls (events run) = Z.to_nat retries.
Proof.
  intros Hb Hall Hfinal run. subst run. unfold callWithRetry.
  destruct (Z.to_nat retries) as [|r] eqn:Hr; [lia|].
  change 1%Z with (Z.of_nat 1).
  apply retryLoop_exhausted; [|exact Hfinal].
  intros n Hn. apply Hall. lia.
Qed.

Lemma callWithRetry_dead_service :
  let run := callWithRetry 1000 (createCompletion deadService (Some "gpt-4o-mini") distDiff) 3 in
  outcome run = Throw (ThrownError timedOut) /\ remoteCalls (events run) = 3%nat.
Proof.
  apply (callWithRetry_exhausted_throws_last_error
           1000 deadService (Some "gpt-4o-mini") distDiff 3 timedOut);
    [lia | | reflexivity].
  intros n _. exists timedOut. by split.
Defined.

(** X3. When every attempt fails with a transient error, the loop waits
    [delay * n] after attempt [n] for every attempt but the last one: a
    budget of [retries] gives [retries - 1] waits. *)
Theorem callWithRetry_transient_waits
        (delay : Z) (api : nat -> ApiOutcome) (md : option string) (diff : string)
        (retries : Z) :
  (1 <= retries)%Z ->
  allRejected api isTransient 1 (Z.to_nat retries) ->
  sleeps (events (callWithRetry delay (createCompletion api md diff) retries))
  = map (fun n => (delay * Z.of_nat n)%Z) (seq 1 (Z.to_nat retries - 1)).
Proof.
  intros Hb Hall. unfold callWithRetry. change 1%Z with (Z.of_nat 1).
  apply retryLoop_transient_waits; [lia|].
  intros n Hn. apply Hall. lia.
Qed.

Lemma callWithRetry_dead_service_waits :
  sleeps (events (callWithRetry 1000 (createCompletion deadService (Some "gpt-4o-mini")
                                                       distDiff) 3))
  = [1000%Z; 2000%Z].
Proof.
  apply (callWithRetry_transient_waits 1000 deadService (Some "gpt-4o-mini") distDiff 3);
    [lia|].
  intros n _. exists timedOut. by split.
Defined.

(** X4. When every attempt is answered with status 429, the loop waits
    [delay * n * 2] after attempt [n] for every attempt, the last one too:
    the error is thrown only after the wait that follows the last attempt. *)
Theorem callWithRetry_rate_limited_waits
        (delay : Z) (api : nat -> ApiOutcome) (md : option string) (diff : string)
        (retries : Z) :
  allRejected api isRateLimit 1 (Z.to_nat retries) ->
  sleeps (events (callWithRetry delay (createCompletion api md diff) retries))
  = map (fun n => (delay * Z.of_nat n * 2)%Z) (seq 1 (Z.to_nat retries))
  /\ (1 <= retries ->
      last (events (callWithRetry delay (createCompletion api md diff) retries))
      = Some (Sleep (delay * retries * 2)))%Z.
Proof.
  intros Hall. split.
  - unfold callWithRetry. change 1%Z with (Z.of_nat 1).
    apply retryLoop_rate_limited_waits. intros n Hn. apply Hall. lia.
  - intros Hb. unfold callWithRetry. change 1%Z with (Z.of_nat 1).
    assert (forall r i lastError,
               allRejected api isRateLimit i (i + r) ->
               last (events (retryLoop delay (createCompletion api md diff) retries (S r)
                                       (Z.of_nat i) lastError))
               = Some (Sleep (delay * Z.of_nat (i + r) * 2))) as Hlast.
    { induction r as [|r IH]; intros i lastError Hi;
        destruct (Hi i ltac:(lia)) as (e & He & Ht);
        rewrite <- (Nat2Z.id i) in He;
        rewrite (retry_rate_limited _ _ _ _ _ _ _ _ e He Ht); cbn [events].
      - rewrite Nat.add_0_r. reflexivity.
      - replace (Z.of_nat i + 1)%Z with (Z.of_nat (S i)) by lia.
        rewrite !last_cons, IH; [by replace (S i + r)%nat with (i + S r)%nat by lia|].
        intros n Hn. apply Hi. lia. }
    destruct (Z.to_nat retries) as [|r] eqn:Hr; [lia|].
    rewrite Hlast; [do 3 f_equal; lia|].
    intros n Hn. apply Hall. lia.
Qed.

Lemma callWithRetry_busy_service_waits :
  sleeps (events (callWithRetry 1000 (createCompletion busyService (Some "gpt-4o-mini")
                                                       distDiff) 3))
  = [2000%Z; 4000%Z; 6000%Z]
  /\ last (events (callWithRetry 1000 (createCompletion busyService (Some "gpt-4o-mini")
                                                        distDiff) 3))
     = Some (Sleep 6000).
Proof.
  destruct (callWithRetry_rate_limited_waits 1000 busyService (Some "gpt-4o-mini")
                                             distDiff 3) as [Hw Hl].
  - intros n _. exists tooManyRequests. by split.
  - split; [exact Hw|]. apply Hl. lia.
Defined.

Lemma retryLoop_thrown_origin (delay : Z) (api : nat -> ApiOutcome) (md : option string)
      (diff : string) (retries : Z) (remaining : nat) :
  forall (i : nat) (lastError t : Thrown),
    outcome (retryLoop delay (createCompletion api md diff) retries remaining
                       (Z.of_nat i) lastError) = Throw t ->
    (remaining = 0%nat /\ t = lastError)
    \/ exists n e, (i <= n < i + remaining)%nat /\ api n = Rejects e /\ t = ThrownError e.
Proof.
  induction remaining as [|r IH]; intros i lastError t Hout; [left; by inversion Hout|].
  right. destruct (api i) as [c|e] eqn:Hapi.
  - rewrite <- (Nat2Z.id i) in Hapi.
    by rewrite (retry_success _ _ _ _ _ _ _ _ c Hapi) in Hout.
  - destruct (isFatal e) eqn:Hf.
    + rewrite <- (Nat2Z.id i) in Hapi.
      rewrite (retry_fatal _ _ _ _ _ _ _ _ e Hapi Hf) in Hout.
      rewrite Nat2Z.id in Hapi. inversion Hout; subst.
      exists i, e. repeat split; [lia|lia|done].
    + destruct (retry_nonfatal_step delay api md diff retries r i lastError e Hapi Hf)
        as (Hsame & _). rewrite Hsame in Hout.
      destruct (IH (S i) (ThrownError e) t Hout) as [[-> ->]|(n & e' & Hn & He' & ->)].
      * exists i, e. repeat split; [lia|lia|done].
      * exists n, e'. repeat split; [lia|lia|done].
Qed.

(** X5. [callWithRetry] invents no error.  What it throws is an error with
    which the service rejected one of the attempts within the budget; the
    only other case is a budget below one, where the operation is not called
    at all and the thrown value is [undefined]. *)
Theorem callWithRetry_throws_what_the_service_threw
        (delay : Z) (api : nat -> ApiOutcome) (md : option string) (diff : string)
        (retries : Z) (t : Thrown) :
  outcome (callWithRetry delay (createCompletion api md diff) retries) = Throw t ->
  ((retries < 1)%Z /\ t = ThrownUndefined
   /\ events (callWithRetry delay (createCompletion api md diff) retries) = [])
  \/ exists n e, (1 <= n <= Z.to_nat retries)%nat /\ api n = Rejects e /\ t = ThrownError e.
Proof.
  unfold callWithRetry. change 1%Z with (Z.of_nat 1). intros Hout.
  destruct (retryLoop_thrown_origin _ _ _ _ _ _ _ _ _ Hout)
    as [[Hr ->]|(n & e & Hn & He & ->)].
  - left. rewrite Hr. repeat split. lia.
  - right. exists n, e. repeat split; [lia|lia|done].
Qed.

Lemma callWithRetry_dead_service_origin :
  ((3 < 1)%Z /\ ThrownError timedOut = ThrownUndefined
   /\ events (callWithRetry 1000 (createCompletion deadService (Some "gpt-4o-mini")
                                                   distDiff) 3) = [])
  \/ exists n e, (1 <= n <= Z.to_nat 3)%nat /\ deadService n = Rejects e
                 /\ ThrownError timedOut = ThrownError e.
Proof.
  apply (callWithRetry_throws_what_the_service_threw
           1000 deadService (Some "gpt-4o-mini") distDiff 3 (ThrownError timedOut)).
  reflexivity.
Defined.

(** ** What the changeset filter keeps *)

Lemma joinLines_cons_char (c : ascii) (h : string) (t : list string) :
  Js.joinLines (String c h :: t) = String c (Js.joinLines (h :: t)).
Proof. by destruct t. Qed.

Lemma joinLines_splitLines (s : string) : Js.joinLines (Js.splitLines s) = s.
Proof.
  induction s as [|c r IH]; [reflexivity|]. cbn [Js.splitLines].
  destruct (Ascii.eqb_spec c Js.LF) as [->|Hc].
  - destruct (Js.splitLines r) as [|h t] eqn:Hr.
    + by destruct (proj1 (splitLines_lines r)).
    + change (Js.joinLines ("" :: h :: t)) with (String Js.LF (Js.joinLines (h :: t))).
      by rewrite IH.
  - destruct (Js.splitLines r) as [|h t] eqn:Hr.
    + by destruct (proj1 (splitLines_lines r)).
    + by rewrite joinLines_cons_char, IH.
Qed.

(** X6. A diff none of whose file headers names an ignored file leaves the
    filter as it came, byte for byte, whatever the patterns are. *)
Theorem filterDiff_keeps_unignored_diff (diff : string) (ignorePatterns : list string) :
  Forall (keptHeader ignorePatterns) (Js.splitLines diff) ->
  filterDiff diff ignorePatterns = Val diff.
Proof.
  intros Hall. unfold filterDiff. destruct ignorePatterns as [|p ps]; [reflexivity|].
  rewrite (filterLoop_kept_again _ _ Hall). rewrite rbind_val.
  by rewrite joinLines_splitLines.
Qed.

Lemma filterDiff_keeps_dist_under_markdown_rules :
  filterDiff distDiff ["*.md"; "!README.md"; "docs/"] = Val distDiff.
Proof.
  apply filterDiff_keeps_unignored_diff.
  repeat constructor; intros f Hf; vm_compute in Hf; try discriminate;
    injection Hf as <-; vm_compute; reflexivity.
Defined.

Lemma filterLoop_sublist (R lines kept : list string) (skip : bool) :
  filterLoop R lines [] skip = Val kept -> sublist kept lines.
Proof.
  revert skip kept. induction lines as [|line rest IH]; intros skip kept.
  - intros [= <-]. constructor.
  - cbn [filterLoop].
    destruct (match diffHeader line with
              | Some currentFile => shouldIgnoreFile currentFile R
              | None => Val skip
              end) as [skip'| |]; try discriminate.
    rewrite rbind_val, filterLoop_acc.
    destruct (filterLoop R rest [] skip') as [kept'| |] eqn:Hrest; try discriminate.
    rewrite rbind_val. intros [= <-]. specialize (IH _ _ Hrest).
    destruct skip'; cbn; by constructor.
Qed.

Lemma length_append (a b : string) :
  String.length (a +:+ b) = (String.length a + String.length b)%nat.
Proof. induction a as [|c a IH]; [reflexivity|]. simpl. by rewrite IH. Qed.

Lemma joinLines_length_cons (x : string) (l : list string) :
  String.length (Js.joinLines (x :: l))
  = (String.length x
     + match l with [] => 0 | _ :: _ => S (String.length (Js.joinLines l)) end)%nat.
Proof.
  destruct l as [|y t]; [cbn; lia|].
  change (Js.joinLines (x :: y :: t)) with (x +:+ String Js.LF (Js.joinLines (y :: t))).
  rewrite length_append. cbn. lia.
Qed.

Lemma joinLines_sublist_length (k l : list string) :
  sublist k l -> (String.length (Js.joinLines k) <= String.length (Js.joinLines l))%nat.
Proof.
  induction 1 as [|x k l Hsub IH|x k l Hsub IH]; [done| |].
  - rewrite !joinLines_length_cons.
    destruct k as [|k0 k'], l as [|l0 l']; try lia.
    by apply sublist_nil_r in Hsub.
  - rewrite joinLines_length_cons. destruct l as [|l0 l']; [|lia].
    apply sublist_nil_r in Hsub as ->. cbn. lia.
Qed.

(** X7. The filter only drops lines: the lines of its output are lines of
    the input in their order, and the output is never longer than the
    input. *)
Theorem filterDiff_only_drops_lines (diff filtered : string) (ignorePatterns : list string) :
  filterDiff diff ignorePatterns = Val filtered ->
  (exists kept, sublist kept (Js.splitLines diff) /\ filtered = Js.joinLines kept)
  /\ (String.length filtered <= String.length diff)%nat.
Proof.
  intros Hf.
  assert (exists kept, sublist kept (Js.splitLines diff) /\ filtered = Js.joinLines kept)
    as (kept & Hsub & ->).
  { unfold filterDiff in Hf. destruct ignorePatterns as [|p ps].
    - injection Hf as <-. exists (Js.splitLines diff).
      split; [done|by rewrite joinLines_splitLines].
    - destruct (filterLoop (p :: ps) (Js.splitLines diff) [] false) as [kept| |] eqn:Hl;
        try discriminate.
      rewrite rbind_val in Hf. injection Hf as <-.
      exists kept. split; [by eapply filterLoop_sublist|done]. }
  split; [by exists kept|].
  pose proof (joinLines_sublist_length _ _ Hsub) as Hlen.
  by rewrite joinLines_splitLines in Hlen.
Qed.

Lemma filterDiff_drops_all_of_dist :
  (exists kept, sublist kept (Js.splitLines distDiff) /\ "" = Js.joinLines kept)
  /\ (String.length "" <= String.length distDiff)%nat.
Proof.
  apply (filterDiff_only_drops_lines distDiff "" ["dist"]). vm_compute. reflexivity.
Defined.

(** X8. A file is dropped or kept as a whole.  After the header of a file,
    the lines up to the next header share the fate of the header: all of
    them are dropped when the patterns ignore the file, and all of them are
    kept, in order, when they do not. *)
Theorem filterLoop_whole_segment
        (R : list string) (header currentFile : string) (body rest acc : list string)
        (skip ignored : bool) :
  diffHeader header = Some currentFile ->
  shouldIgnoreFile currentFile R = Val ignored ->
  Forall (fun l => diffHeader l = None) body ->
  filterLoop R (header :: body ++ rest) acc skip
  = filterLoop R rest (if ignored then acc else acc ++ header :: body) ignored.
Proof.
  intros Hh Hf Hbody. cbn [filterLoop]. rewrite Hh, Hf, rbind_val.
  assert (forall acc', filterLoop R (body ++ rest) acc' ignored
                       = filterLoop R rest (if ignored then acc' else acc' ++ body) ignored)
    as Hseg.
  { induction Hbody as [|l body Hl Hbody IH]; intros acc'.
    - cbn. destruct ignored; by rewrite ?app_nil_r.
    - cbn [app filterLoop]. rewrite Hl, rbind_val, IH.
      destruct ignored; [done|]. by rewrite <- app_assoc. }
  rewrite Hseg. destruct ignored; [done|]. by rewrite <- app_assoc.
Qed.

Lemma filterLoop_drops_dist_segment :
  filterLoop ["dist"] ("diff --git a/dist/a.js b/dist/a.js" :: ["--- a/dist/a.js"; "+x"]
                         ++ ["diff --git a/src/b.js b/src/b.js"; "+y"]) [] false
  = filterLoop ["dist"] ["diff --git a/src/b.js b/src/b.js"; "+y"] [] true.
Proof.
  apply (filterLoop_whole_segment ["dist"] _ "dist/a.js" _ _ [] false true);
    [reflexivity | vm_compute; reflexivity | by repeat constructor].
Defined.

(** ** Rules *)

(** X9. A second [!] in front of a pattern changes nothing: [!!name] is the
    same rule as [!name], a negated one, and does not turn the negation
    off. *)
Theorem patternToRegex_double_negation (pattern : string) :
  patternToRegex (String "!" (String "!" pattern)) = patternToRegex (String "!" pattern).
Proof.
  rewrite (patternToRegex_cons "!" (String "!" pattern)).
  rewrite (patternToRegex_cons "!" pattern). cbn [Ascii.eqb Bool.eqb].
  by destruct (patternToRegex pattern).
Qed.

Lemma negated_pattern_rule (pattern : string) (r : Rule) :
  Js.startsWith pattern "!" = true -> patternToRegex pattern = Val r -> negated r = true.
Proof.
  destruct pattern as [|c rest]; [discriminate|].
  unfold Js.startsWith. cbn [String.prefix].
  destruct (ascii_dec "!" c) as [<-|]; [|discriminate]. intros _.
  rewrite patternToRegex_cons. cbn [Ascii.eqb Bool.eqb].
  destruct (patternToRegex rest); [|discriminate..]. by intros [= <-].
Qed.

(** X10. Patterns that all begin with [!] ignore nothing: whatever the path
    and however many of them match, the answer is [false]. *)
Theorem shouldIgnoreFile_only_negated (filePath : string) (patterns : list string)
        (ignored : bool) :
  Forall (fun p => Js.startsWith p "!" = true) patterns ->
  shouldIgnoreFile filePath patterns = Val ignored ->
  ignored = false.
Proof.
  unfold shouldIgnoreFile. intros Hall.
  induction Hall as [|p ps Hp Hps IH]; cbn [ignoreLoop]; [by intros [= <-]|].
  destruct (patternToRegex p) as [r| |] eqn:Hr; try discriminate.
  rewrite rbind_val, (negated_pattern_rule p r Hp Hr). cbn [negb].
  by destruct (RegExp.test (regex r) filePath).
Qed.

Lemma shouldIgnoreFile_only_negated_sample :
  Forall (fun p => Js.startsWith p "!" = true) ["!README.md"; "!*.md"]
  /\ shouldIgnoreFile "README.md" ["!README.md"; "!*.md"] = Val false
  /\ false = false.
Proof.
  assert (Forall (fun p => Js.startsWith p "!" = true) ["!README.md"; "!*.md"]) as Hall
      by (by repeat constructor).
  assert (shouldIgnoreFile "README.md" ["!README.md"; "!*.md"] = Val false) as Hrun
      by (vm_compute; reflexivity).
  split; [exact Hall|split; [exact Hrun|]].
  exact (shouldIgnoreFile_only_negated _ _ false Hall Hrun).
Defined.

Lemma ignoreLoop_app (filePath : string) (R1 R2 : list string) (ignored : bool) :
  ignoreLoop filePath (R1 ++ R2) ignored
  = (ign ← ignoreLoop filePath R1 ignored; ignoreLoop filePath R2 ign).
Proof.
  revert ignored. induction R1 as [|p ps IH]; intros ignored; [reflexivity|].
  cbn [app ignoreLoop]. destruct (patternToRegex p) as [r| |]; try reflexivity.
  by rewrite !rbind_val, IH.
Qed.

(** X11. Patterns that do not match a path have no say on it: rules that
    compile and of which none accepts the path can be added in front of or
    behind a rule list without changing what the list answers for this
    path. *)
Theorem shouldIgnoreFile_unmatched_rules_are_neutral
        (filePath : string) (before rulesList after : list string)
        (rulesBefore rulesAfter : list Rule) :
  compileAll before = Val rulesBefore ->
  compileAll after = Val rulesAfter ->
  Forall (fun r => accepts filePath r = false) (rulesBefore ++ rulesAfter) ->
  shouldIgnoreFile filePath (before ++ rulesList ++ after)
  = shouldIgnoreFile filePath rulesList.
Proof.
  intros Hb Ha Hall. apply Forall_app in Hall as [Hnb Hna].
  assert (forall R rules ign,
             compileAll R = Val rules ->
             Forall (fun r => accepts filePath r = false) rules ->
             ignoreLoop filePath R ign = Val ign) as Hneutral.
  { intros R rules ign HR Hno. rewrite ignoreLoop_compileAll, HR, rbind_val. f_equal.
    clear HR. induction Hno as [|r rs Hr Hrs IH]; [done|].
    cbn [fold_left]. unfold stepRule at 2. by rewrite Hr. }
  unfold shouldIgnoreFile.
  rewrite ignoreLoop_app, (Hneutral _ _ false Hb Hnb), rbind_val, ignoreLoop_app.
  destruct (ignoreLoop filePath rulesList false) as [ign| |]; try reflexivity.
  rewrite rbind_val. by apply (Hneutral _ _ ign Ha).
Qed.

Lemma shouldIgnoreFile_neutral_sample :
  shouldIgnoreFile "src/app.js" (["*.md"] ++ ["src"; "!src/app.js"] ++ ["dist"; "*.lock"])
  = shouldIgnoreFile "src/app.js" ["src"; "!src/app.js"].
Proof.
  assert (exists rb, compileAll ["*.md"] = Val rb
                     /\ Forall (fun r => accepts "src/app.js" r = false) rb)
    as (rb & Hb & Hnb).
  { eexists. split; [vm_compute; reflexivity|]. repeat constructor. }
  assert (exists ra, compileAll ["dist"; "*.lock"] = Val ra
                     /\ Forall (fun r => accepts "src/app.js" r = false) ra)
    as (ra & Ha & Hna).
  { eexists. split; [vm_compute; reflexivity|]. repeat constructor. }
  apply (shouldIgnoreFile_unmatched_rules_are_neutral _ _ _ _ rb ra Hb Ha).
  by apply Forall_app.
Defined.

(** ** Patterns without wildcard *)

Lemma prefix_cons (a b : ascii) (s1 s2 : string) :
  String.prefix (String a s1) (String b s2)
  = if Ascii.eqb a b then String.prefix s1 s2 else false.
Proof.
  cbn [String.prefix]. destruct (ascii_dec a b) as [->|Hne].
  - by rewrite Ascii.eqb_refl.
  - by destruct (Ascii.eqb_spec a b).
Qed.

Lemma replaceFrom_miss (needle repl : string) (c : ascii) (r : string) :
  String.prefix needle (String c r) = false ->
  Js.replaceFrom needle repl 0 (String c r) = String c (Js.replaceFrom needle repl 0 r).
Proof.
  intros H.
  change (Js.replaceFrom needle repl 0 (String c r))
    with (if String.prefix needle (String c r)
          then repl +:+ Js.replaceFrom needle repl (String.length needle - 1) r
          else String c (Js.replaceFrom needle repl 0 r)).
  by rewrite H.
Qed.

Lemma replaceAll_absent (n0 : ascii) (nrest repl s : string) :
  RegExp.mem n0 s = false -> Js.replaceAll (String n0 nrest) repl s = s.
Proof.
  unfold Js.replaceAll. induction s as [|c r IH]; [reflexivity|].
  cbn [RegExp.mem]. intros H. apply orb_false_iff in H as [Hc Hr].
  rewrite replaceFrom_miss by (by rewrite prefix_cons, Hc). by rewrite (IH Hr).
Qed.

Lemma mem_escapeSpecials (c : ascii) (s : string) :
  Ascii.eqb c "\" = false -> RegExp.mem c (escapeSpecials s) = RegExp.mem c s.
Proof.
  intros Hc. induction s as [|d r IH]; [reflexivity|].
  cbn [escapeSpecials]. destruct (RegExp.mem d escapedChars); cbn [RegExp.mem];
    by rewrite ?Hc, IH.
Qed.

Lemma escapeSpecials_no_brace_first (s : string) :
  String.prefix "{" (escapeSpecials s) = false.
Proof.
  destruct s as [|d r]; [reflexivity|]. cbn [escapeSpecials].
  destruct (RegExp.mem d escapedChars) eqn:Hd; [reflexivity|].
  rewrite prefix_cons. destruct (Ascii.eqb_spec "{" d) as [<-|]; [discriminate|done].
Qed.

Lemma prefix_first_char (a : ascii) (t s : string) :
  String.prefix (String a "") s = false -> String.prefix (String a t) s = false.
Proof.
  destruct s as [|b r]; [done|]. rewrite !prefix_cons.
  destruct (Ascii.eqb a b); [|done]. by destruct r.
Qed.

Lemma placeholder_absent (s : string) :
  Js.replaceAll "{{DOUBLE_STAR}}" ".*" (escapeSpecials s) = escapeSpecials s.
Proof.
  unfold Js.replaceAll. induction s as [|d r IH]; [reflexivity|].
  cbn [escapeSpecials].
  assert (Js.replaceFrom "{{DOUBLE_STAR}}" ".*" 0 (String d (escapeSpecials r))
          = String d (escapeSpecials r)) as Hd.
  { rewrite replaceFrom_miss; [by rewrite IH|]. rewrite prefix_cons.
    rewrite (prefix_first_char "{" _ _ (escapeSpecials_no_brace_first r)).
    by destruct (Ascii.eqb "{" d). }
  destruct (RegExp.mem d escapedChars); [|exact Hd].
  rewrite replaceFrom_miss by (by rewrite prefix_cons). by rewrite Hd.
Qed.

Lemma literalPattern_source (pattern : string) :
  literalPattern pattern = true ->
  regexSource pattern = "(^|/)" +:+ escapeSpecials pattern +:+ "($|/)".
Proof.
  unfold literalPattern. intros H.
  repeat (apply andb_true_iff in H as [H ?]).
  repeat match goal with Hn : negb _ = true |- _ => apply negb_true_iff in Hn end.
  unfold regexSource.
  rewrite (replaceAll_absent "*" "*") by (by rewrite mem_escapeSpecials).
  rewrite (replaceAll_absent "*" "") by (by rewrite mem_escapeSpecials).
  rewrite (replaceAll_absent "?" "") by (by rewrite mem_escapeSpecials).
  rewrite placeholder_absent.
  match goal with Hs : Js.startsWith pattern "/" = false |- _ => rewrite Hs end.
  match goal with He : Js.endsWith pattern "/" = false |- _ => rewrite He end.
  reflexivity.
Qed.

Lemma parse_literal_char (c : ascii) (rest : string) (stack : list RegExp.Frame)
      (top : RegExp.Frame) :
  RegExp.mem c escapedChars = false -> Ascii.eqb c "*" = false -> Ascii.eqb c "?" = false ->
  RegExp.parse (String c rest) stack top
  = RegExp.parse rest stack (RegExp.pushTerm top (RChar c) RegExp.KAtom).
Proof.
  intros H1 H2 H3.
  destruct c as [[] [] [] [] [] [] [] []];
    try (cbv in H1; discriminate); try (cbv in H2; discriminate);
    try (cbv in H3; discriminate); reflexivity.
Qed.

Lemma parse_escaped_char (c : ascii) (rest : string) (stack : list RegExp.Frame)
      (top : RegExp.Frame) :
  RegExp.mem c escapedChars = true ->
  RegExp.parse (String "\" (String c rest)) stack top
  = RegExp.parse rest stack (RegExp.pushTerm top (RChar c) RegExp.KAtom).
Proof.
  intros H.
  destruct c as [[] [] [] [] [] [] [] []]; try (cbv in H; discriminate); reflexivity.
Qed.

Lemma parse_escapeSpecials (s rest : string) :
  RegExp.mem "*" s = false -> RegExp.mem "?" s = false ->
  forall (stack : list RegExp.Frame) (top : RegExp.Frame),
    RegExp.parse (escapeSpecials s +:+ rest) stack top
    = RegExp.parse rest stack (pushChars s top).
Proof.
  induction s as [|c r IH]; intros Hs Hq stack top; [reflexivity|].
  cbn [RegExp.mem] in Hs, Hq.
  apply orb_false_iff in Hs as [Hs1 Hs2]. apply orb_false_iff in Hq as [Hq1 Hq2].
  rewrite Ascii.eqb_sym in Hs1. rewrite Ascii.eqb_sym in Hq1.
  cbn [escapeSpecials pushChars].
  destruct (RegExp.mem c escapedChars) eqn:Hc.
  - change (String "\" (String c (escapeSpecials r)) +:+ rest)
      with (String "\" (String c (escapeSpecials r +:+ rest))).
    rewrite parse_escaped_char by done. by apply IH.
  - change (String c (escapeSpecials r) +:+ rest)
      with (String c (escapeSpecials r +:+ rest)).
    rewrite parse_literal_char by done. by apply IH.
Qed.

Lemma pushChars_frame (s : string) (top : RegExp.Frame) :
  RegExp.done_alts (pushChars s top) = RegExp.done_alts top
  /\ RegExp.terms (pushChars s top)
     = rev (map (fun c => (RChar c, RegExp.KAtom)) (list_ascii_of_string s))
       ++ RegExp.terms top.
Proof.
  revert top. induction s as [|c r IH]; intros top; [done|].
  cbn [pushChars list_ascii_of_string map rev].
  destruct (IH (RegExp.pushTerm top (RChar c) RegExp.KAtom)) as [-> ->].
  split; [done|]. cbn. by rewrite <- app_assoc.
Qed.

Lemma literalPattern_compiles (pattern : string) :
  literalPattern pattern = true ->
  RegExp.compile (regexSource pattern)
  = RegExp.Regex
      (RegExp.seqOf
         ((RAlt REol (RChar "/"), RegExp.KAtom)
            :: rev (map (fun c => (RChar c, RegExp.KAtom)) (list_ascii_of_string pattern))
            ++ [(RAlt RBol (RChar "/"), RegExp.KAtom)])).
Proof.
  intros Hlit. rewrite (literalPattern_source _ Hlit).
  unfold literalPattern in Hlit.
  repeat (apply andb_true_iff in Hlit as [Hlit ?]).
  repeat match goal with Hn : negb _ = true |- _ => apply negb_true_iff in Hn end.
  unfold RegExp.compile.
  change (RegExp.parse ("(^|/)" +:+ escapeSpecials pattern +:+ "($|/)") [] RegExp.emptyFrame)
    with (RegExp.parse (escapeSpecials pattern +:+ "($|/)") []
            {| RegExp.done_alts := [];
               RegExp.terms := [(RAlt RBol (RChar "/"), RegExp.KAtom)] |}).
  rewrite parse_escapeSpecials by done.
  set (F := pushChars pattern _).
  change (RegExp.parse "($|/)" [] F)
    with (RegExp.Regex (RegExp.closeFrame
                          (RegExp.pushTerm F (RAlt REol (RChar "/")) RegExp.KAtom))).
  unfold RegExp.closeFrame, RegExp.pushTerm. cbn [RegExp.done_alts RegExp.terms].
  subst F. destruct (pushChars_frame pattern
                       {| RegExp.done_alts := [];
                          RegExp.terms := [(RAlt RBol (RChar "/"), RegExp.KAtom)] |})
    as [-> ->].
  reflexivity.
Qed.

Lemma chain_app (rs1 rs2 : list Re) (p q m : RegExp.Pos) :
  chain rs1 p m -> chain rs2 m q -> chain (rs1 ++ rs2) p q.
Proof.
  revert p. induction rs1 as [|r rs IH]; intros p; cbn [chain app].
  - by intros ->.
  - intros (m' & Hin & Hrest) H2. exists m'. split; [done|]. by apply IH.
Qed.

Lemma chain_chars (s rest : string) (i : nat) :
  chain (map RChar (list_ascii_of_string s)) (i, s +:+ rest) ((i + String.length s)%nat, rest).
Proof.
  revert i. induction s as [|c r IH]; intros i; cbn [list_ascii_of_string map chain].
  - cbn. by rewrite Nat.add_0_r.
  - exists (S i, r +:+ rest). split.
    + change (RegExp.ends (RChar c) (i, String c r +:+ rest))
        with (if Ascii.eqb c c then [(S i, r +:+ rest)] else []).
      rewrite Ascii.eqb_refl. by left.
    + replace (i + String.length (String c r))%nat with (S i + String.length r)%nat
        by (cbn; lia).
      apply IH.
Qed.

Lemma chain_one (r : Re) (p q : RegExp.Pos) : In q (RegExp.ends r p) -> chain [r] p q.
Proof. intros H. by exists q. Qed.

Lemma front_at_start (s : string) :
  In (0%nat, s) (RegExp.ends (RAlt RBol (RChar "/")) (0%nat, s)).
Proof. by left. Qed.

Lemma front_after_slash (i : nat) (s : string) :
  In (S i, s) (RegExp.ends (RAlt RBol (RChar "/")) (i, "/" +:+ s)).
Proof.
  change (RegExp.ends (RAlt RBol (RChar "/")) (i, "/" +:+ s))
    with ((if (i =? 0)%nat then [(i, "/" +:+ s)] else []) ++ [(S i, s)]).
  apply in_or_app. right. by left.
Qed.

Lemma back_at_end (i : nat) :
  In (i, "") (RegExp.ends (RAlt REol (RChar "/")) (i, "")).
Proof. by left. Qed.

Lemma back_before_slash (i : nat) (s : string) :
  In (S i, s) (RegExp.ends (RAlt REol (RChar "/")) (i, "/" +:+ s)).
Proof. by left. Qed.

Lemma append_assoc (a b c : string) : (a +:+ b) +:+ c = a +:+ b +:+ c.
Proof.
  induction a as [|x a IH]; [done|].
  change (String x ((a +:+ b) +:+ c) = String x (a +:+ b +:+ c)). by f_equal.
Qed.

(** A sequence read by the parser matches along a chain of its terms. *)
Lemma ends_fold_chain (ts : list (Re * RegExp.Kind)) :
  forall (acc : Re) (p m q : RegExp.Pos),
    chain (rev (map fst ts)) p m -> In q (RegExp.ends acc m) ->
    In q (RegExp.ends
            (fold_left (fun acc t => match acc with
                                     | REps => fst t
                                     | _ => RCat (fst t) acc
                                     end) ts acc) p).
Proof.
  induction ts as [|t ts IH]; intros acc p m q Hchain Hacc.
  - cbn in Hchain. by subst.
  - cbn [fold_left]. cbn [map rev] in Hchain.
    assert (exists m', chain (rev (map fst ts)) p m' /\ In m (RegExp.ends (fst t) m'))
      as (m' & Hfront & Ht).
    { clear -Hchain. revert p Hchain.
      induction (rev (map fst ts)) as [|r rs IHr]; intros p Hchain.
      - cbn in Hchain. destruct Hchain as (x & Hx & <-). by exists p.
      - cbn [app chain] in Hchain. destruct Hchain as (x & Hx & Hrest).
        destruct (IHr _ Hrest) as (m' & Hm' & Hlast).
        exists m'. split; [|done]. by exists x. }
    apply (IH _ p m' q Hfront).
    destruct acc; try (cbn [RegExp.ends]; apply in_flat_map; by exists m).
    cbn in Hacc. destruct Hacc as [<-|[]]. exact Ht.
Qed.

Lemma starts_app (pre s : string) (i : nat) :
  In ((i + String.length pre)%nat, s) (RegExp.starts i (pre +:+ s)).
Proof.
  revert i. induction pre as [|c r IH]; intros i.
  - cbn [String.length String.app]. rewrite Nat.add_0_r. destruct s; by left.
  - change (String c r +:+ s) with (String c (r +:+ s)). cbn [RegExp.starts String.length].
    right. replace (i + S (String.length r))%nat with (S i + String.length r)%nat by lia.
    apply IH.
Qed.

Lemma test_from (r : Re) (subject : string) (p q : RegExp.Pos) :
  In p (RegExp.starts 0 subject) -> In q (RegExp.ends r p) ->
  RegExp.test r subject = true.
Proof.
  intros Hp Hq. unfold RegExp.test. apply existsb_exists. exists p. split; [done|].
  by destruct (RegExp.ends r p).
Qed.

(** X12. A pattern without wildcard ignores the file or directory of that
    name at any depth.  For a pattern with no [*] and no [?], no [!] or [/]
    in front and no [/] at the end, every path that has the pattern as a run
    of whole segments -- at its start or after a [/], and up to its end or
    to a [/] -- is ignored, whatever other characters the pattern has. *)
Theorem literal_pattern_ignores_its_name (pattern before after : string) :
  literalPattern pattern = true ->
  before = "" \/ (exists dir, before = dir +:+ "/") ->
  after = "" \/ (exists rest, after = "/" +:+ rest) ->
  shouldIgnoreFile (before +:+ pattern +:+ after) [pattern] = Val true.
Proof.
  intros Hlit Hbefore Hafter.
  assert (patternToRegex pattern
          = (r ← newRegExp (regexSource pattern); Val {| regex := r; negated := false |}))
    as Hrule.
  { assert (Js.startsWith pattern "!" = false) as Hbang.
    { unfold literalPattern in Hlit.
      repeat (apply andb_true_iff in Hlit as [Hlit ?]).
      by repeat match goal with Hn : negb _ = true |- _ => apply negb_true_iff in Hn end. }
    destruct pattern as [|c rest]; [reflexivity|].
    rewrite patternToRegex_cons.
    destruct (Ascii.eqb_spec c "!") as [->|]; [|reflexivity].
    unfold Js.startsWith in Hbang. rewrite prefix_cons in Hbang.
    by destruct rest. }
  unfold shouldIgnoreFile. cbn [ignoreLoop]. rewrite Hrule.
  unfold newRegExp. rewrite (literalPattern_compiles _ Hlit), !rbind_val.
  cbn [regex negated negb].
  set (chars := map (fun c => (RChar c, RegExp.KAtom)) (list_ascii_of_string pattern)).
  set (ts := (RAlt REol (RChar "/"), RegExp.KAtom)
               :: rev chars ++ [(RAlt RBol (RChar "/"), RegExp.KAtom)]).
  assert (rev (map fst ts)
          = [RAlt RBol (RChar "/")]
              ++ map RChar (list_ascii_of_string pattern)
              ++ [RAlt REol (RChar "/")]) as Hterms.
  { subst ts chars. cbn [map rev]. rewrite map_app, rev_app_distr. cbn [map rev app].
    rewrite <- map_rev, rev_involutive, map_map. reflexivity. }
  assert (forall i, exists stop,
             chain [RAlt REol (RChar "/")] (i, after) stop) as Hstop.
  { intros i. destruct Hafter as [->|[rest ->]]; eexists; apply chain_one;
      [apply back_at_end|apply back_before_slash]. }
  assert (exists start stop,
             In start (RegExp.starts 0 (before +:+ pattern +:+ after))
             /\ chain (rev (map fst ts)) start stop) as (start & stop & Hstart & Hchain).
  { rewrite Hterms. destruct Hbefore as [->|[dir ->]].
    - destruct (Hstop (0 + String.length pattern)%nat) as [stop Hs].
      exists (0%nat, pattern +:+ after), stop.
      split; [apply (starts_app "" _ 0)|].
      eapply chain_app; [apply chain_one, front_at_start|].
      eapply chain_app; [apply chain_chars|exact Hs].
    - destruct (Hstop (S (String.length dir) + String.length pattern)%nat) as [stop Hs].
      exists (String.length dir, "/" +:+ pattern +:+ after), stop.
      split; [rewrite append_assoc; apply (starts_app dir _ 0)|].
      eapply chain_app; [apply chain_one, front_after_slash|].
      eapply chain_app; [apply chain_chars|exact Hs]. }
  rewrite (test_from _ _ start stop Hstart); [reflexivity|].
  unfold RegExp.seqOf. apply (ends_fold_chain ts REps start stop stop Hchain). by left.
Qed.

Lemma lock_file_is_ignored_at_depth :
  shouldIgnoreFile ("packages/web/" +:+ "package-lock.json" +:+ "") ["package-lock.json"]
  = Val true.
Proof.
  apply (literal_pattern_ignores_its_name "package-lock.json" "packages/web/" "");
    [reflexivity | right; by exists "packages/web" | by left].
Defined.

(** ** The [.env] files *)

Example envAssignment_samples :
  envAssignment "OPENAI_API_KEY=sk-abc" = Some ("OPENAI_API_KEY", "sk-abc")
  /\ envAssignment "  OPENAI_BASE_URL = https://host/v1?a=b  "
     = Some ("OPENAI_BASE_URL", "https://host/v1?a=b")
  /\ envAssignment "# AI_PROVIDER=openai" = None
  /\ envAssignment "AI_PROVIDER" = None
  /\ envAssignment "AI_PROVIDER=" = Some ("AI_PROVIDER", "")
  /\ envAssignment "=x" = None
  /\ envAssignment "" = None.
Proof. repeat split; reflexivity. Qed.

Lemma trimEnd_cons (c : ascii) (r : string) :
  Js.trimEnd (String c r)
  = if String.eqb (Js.trimEnd r) "" && Js.isWhiteSpace c then "" else String c (Js.trimEnd r).
Proof. reflexivity. Qed.

Lemma trimEnd_idempotent (s : string) : Js.trimEnd (Js.trimEnd s) = Js.trimEnd s.
Proof.
  induction s as [|c r IH]; [reflexivity|]. rewrite trimEnd_cons.
  destruct (String.eqb (Js.trimEnd r) "" && Js.isWhiteSpace c) eqn:Hc; [reflexivity|].
  by rewrite trimEnd_cons, IH, Hc.
Qed.

Lemma trimStart_cons (c : ascii) (r : string) :
  Js.trimStart (String c r) = if Js.isWhiteSpace c then Js.trimStart r else String c r.
Proof. reflexivity. Qed.

Lemma trimStart_trimEnd (s : string) :
  Js.trimStart (Js.trimEnd s) = Js.trimEnd (Js.trimStart s).
Proof.
  induction s as [|c r IH]; [reflexivity|].
  rewrite trimEnd_cons, trimStart_cons.
  destruct (Js.isWhiteSpace c) eqn:Hc.
  - rewrite andb_true_r. destruct (String.eqb_spec (Js.trimEnd r) "") as [He|Hne].
    + by rewrite <- IH, He.
    + by rewrite trimStart_cons, Hc.
  - rewrite andb_false_r, trimStart_cons, Hc, trimEnd_cons, Hc. by rewrite andb_false_r.
Qed.

Lemma trimStart_idempotent (s : string) : Js.trimStart (Js.trimStart s) = Js.trimStart s.
Proof.
  induction s as [|c r IH]; [reflexivity|]. rewrite trimStart_cons.
  destruct (Js.isWhiteSpace c) eqn:Hc; [done|]. by rewrite trimStart_cons, Hc.
Qed.

Lemma trim_trimEnd (s : string) : Js.trim (Js.trimEnd s) = Js.trim s.
Proof. unfold Js.trim. by rewrite trimStart_trimEnd, trimEnd_idempotent. Qed.

Lemma trim_idempotent (s : string) : Js.trim (Js.trim s) = Js.trim s.
Proof.
  unfold Js.trim. by rewrite trimStart_trimEnd, trimStart_idempotent, trimEnd_idempotent.
Qed.

Lemma trimEnd_append (a b : string) :
  Js.trimEnd b <> "" -> Js.trimEnd (a +:+ b) = a +:+ Js.trimEnd b.
Proof.
  intros Hb. induction a as [|c r IH]; [reflexivity|].
  change (String c r +:+ b) with (String c (r +:+ b)). rewrite trimEnd_cons, IH.
  destruct (String.eqb_spec (r +:+ Js.trimEnd b) "") as [He|]; [|reflexivity].
  destruct r; [by destruct Hb|discriminate].
Qed.

Lemma splitOn_append_sep (sep : ascii) (a b : string) :
  RegExp.mem sep a = false -> splitOn sep (a +:+ String sep b) = a :: splitOn sep b.
Proof.
  induction a as [|c r IH]; intros Hno.
  - change ("" +:+ String sep b) with (String sep b). cbn [splitOn].
    by rewrite Ascii.eqb_refl.
  - cbn [RegExp.mem] in Hno. apply orb_false_iff in Hno as [Hc Hr].
    change (String c r +:+ String sep b) with (String c (r +:+ String sep b)).
    cbn [splitOn]. rewrite Ascii.eqb_sym, Hc, (IH Hr). reflexivity.
Qed.

Lemma splitOn_nonempty (sep : ascii) (s : string) : splitOn sep s <> [].
Proof.
  induction s as [|c r IH]; [done|]. cbn [splitOn].
  destruct (Ascii.eqb c sep); [done|]. by destruct (splitOn sep r).
Qed.

Lemma joinWith_splitOn (sep : ascii) (s : string) : joinWith sep (splitOn sep s) = s.
Proof.
  induction s as [|c r IH]; [reflexivity|]. cbn [splitOn].
  pose proof (splitOn_nonempty sep r) as Hne.
  destruct (Ascii.eqb_spec c sep) as [->|Hc].
  - destruct (splitOn sep r) as [|h t]; [done|].
    change (joinWith sep ("" :: h :: t)) with (String sep (joinWith sep (h :: t))).
    by rewrite IH.
  - destruct (splitOn sep r) as [|h t]; [done|].
    assert (joinWith sep (String c h :: t) = String c (joinWith sep (h :: t))) as ->
        by (by destruct t).
    by rewrite IH.
Qed.

(** X13. A line [KEY=VALUE] of a [.env] file assigns to [KEY] all the text
    after the first [=], so a value may itself hold [=]; white space around
    the key and around the value is dropped.  This holds for every key that
    begins with a character other than white space and [#] and has no [=]. *)
Theorem envAssignment_key_value (c : ascii) (key value : string) :
  Js.isWhiteSpace c = false -> Ascii.eqb c "#" = false ->
  RegExp.mem "=" (String c key) = false ->
  envAssignment (String c key +:+ "=" +:+ value)
  = Some (Js.trim (String c key), Js.trim value).
Proof.
  intros Hws Hhash Hno. unfold envAssignment.
  assert (Js.trim (String c key +:+ "=" +:+ value)
          = String c key +:+ String "=" (Js.trimEnd value)) as ->.
  { unfold Js.trim.
    change (String c key +:+ "=" +:+ value) with (String c (key +:+ String "=" value)).
    rewrite trimStart_cons, Hws.
    change (String c (key +:+ String "=" value)) with (String c key +:+ String "=" value).
    rewrite trimEnd_append; rewrite trimEnd_cons, andb_false_r; done. }
  change (String c key +:+ String "=" (Js.trimEnd value))
    with (String c (key +:+ String "=" (Js.trimEnd value))) at 1 2.
  cbn [String.eqb negb andb]. unfold Js.startsWith. rewrite prefix_cons.
  rewrite Ascii.eqb_sym, Hhash. cbn [negb andb].
  rewrite (splitOn_append_sep "=" (String c key) (Js.trimEnd value) Hno).
  pose proof (splitOn_nonempty "=" (Js.trimEnd value)) as Hne.
  destruct (splitOn "=" (Js.trimEnd value)) as [|h t] eqn:Hs; [done|].
  cbn [String.eqb negb andb List.length Nat.eqb].
  by rewrite <- Hs, joinWith_splitOn, trim_trimEnd.
Qed.

Lemma envAssignment_url_with_query :
  envAssignment ("OPENAI_BASE_URL " +:+ "=" +:+ " https://host/v1?a=b&c=d ")
  = Some (Js.trim "OPENAI_BASE_URL ", Js.trim " https://host/v1?a=b&c=d ").
Proof.
  apply (envAssignment_key_value "O" "PENAI_BASE_URL " " https://host/v1?a=b&c=d ");
    reflexivity.
Defined.

Lemma fold_assign_lookup (lines : list string) :
  forall (env : gmap string string) (key : string),
    fold_left assign lines env !! key
    = match lastAssigned key (omap envAssignment lines) with
      | Some v => Some v
      | None => env !! key
      end.
Proof.
  induction lines as [|l ls IH]; intros env key; [reflexivity|].
  cbn [fold_left omap list_omap]. rewrite IH. unfold assign.
  destruct (envAssignment l) as [[k v]|]; [|reflexivity].
  unfold lastAssigned. cbn [List.filter fst].
  destruct (String.eqb_spec k key) as [->|Hne].
  - rewrite last_cons.
    destruct (last (List.filter (fun kv => String.eqb (fst kv) key)
                                (omap envAssignment ls))); cbn; [done|].
    by rewrite lookup_insert_eq.
  - destruct (last (List.filter (fun kv => String.eqb (fst kv) key)
                                (omap envAssignment ls))); cbn; [done|].
    by rewrite lookup_insert_ne.
Qed.

Lemma loadEnv_lookup (file : option string) (env : gmap string string) (key : string) :
  loadEnv file env !! key
  = match lastAssigned key (assignmentsOf file) with
    | Some v => Some v
    | None => env !! key
    end.
Proof. destruct file; [apply fold_assign_lookup|reflexivity]. Qed.

(** X14. What the script finds under a variable after its two calls of
    [loadEnv]: the last assignment to it in the [.env] file of the working
    directory; if there is none, the last one in the file of the project
    root; and only if that file has none either, the value of the process
    environment.  So a [.env] file overrides the real environment, and a
    variable that no file assigns is left as it is. *)
Theorem loadedEnv_precedence (rootEnvFile cwdEnvFile : option string)
        (processEnv : gmap string string) (key : string) :
  loadedEnv rootEnvFile cwdEnvFile processEnv !! key
  = match lastAssigned key (assignmentsOf cwdEnvFile) with
    | Some v => Some v
    | None =>
        match lastAssigned key (assignmentsOf rootEnvFile) with
        | Some v => Some v
        | None => processEnv !! key
        end
    end.
Proof. unfold loadedEnv. by rewrite !loadEnv_lookup. Qed.

(** X15. Loading a [.env] file a second time changes nothing; this is what
    the second call of [loadEnv] does whenever the working directory is the
    project root. *)
Theorem loadEnv_idempotent (file : option string) (env : gmap string string) :
  loadEnv file (loadEnv file env) = loadEnv file env.
Proof.
  apply map_eq. intros key. rewrite !loadEnv_lookup.
  by destruct (lastAssigned key (assignmentsOf file)).
Qed.

(** ** Precedence in the provider configuration *)

(** X16. The provider name is read without regard to case: a name and its
    lower-case form give the same configuration. *)
Theorem getAIConfig_ignores_case (env : gmap string string) (name : string) :
  getAIConfig (<["AI_PROVIDER" := name]> env)
  = getAIConfig (<["AI_PROVIDER" := Js.toLowerCase name]> env).
Proof. symmetry. apply getAIConfig_case_insensitive. Qed.

(** X17. Explicit settings win over every preset: a non-empty
    [OPENAI_BASE_URL] is the base URL and a non-empty [OPENAI_MODEL] is the
    model, whatever [AI_PROVIDER] says; and a non-empty credential under the
    key of the chosen preset wins over [OPENAI_API_KEY]. *)
Theorem getAIConfig_explicit_settings_win (env : gmap string string) :
  (forall url, env !! "OPENAI_BASE_URL" = Some url -> url <> "" ->
               cfgBaseURL (getAIConfig env) = Some url)
  /\ (forall name, env !! "OPENAI_MODEL" = Some name -> name <> "" ->
                   model (getAIConfig env) = Some name)
  /\ (forall p key, choosePreset (provider (getAIConfig env)) = Some p ->
                    env !! envKey p = Some key -> key <> "" ->
                    apiKey (getAIConfig env) = Some key).
Proof.
  repeat split.
  - intros url Hu Hne. by apply getAIConfig_base_url_override.
  - intros name Hm Hne. unfold getAIConfig. cbn [model]. by apply or_first.
  - intros p key Hp Hk Hne. rewrite (getAIConfig_credential env p Hp). by apply or_first.
Qed.

Lemma getAIConfig_explicit_settings_sample :
  let env : gmap string string :=
    list_to_map [("AI_PROVIDER", "deepseek"); ("OPENAI_BASE_URL", "http://localhost:8080/v1");
                 ("OPENAI_MODEL", "qwen2.5"); ("DEEPSEEK_API_KEY", "sk-deep");
                 ("OPENAI_API_KEY", "sk-open")] in
  cfgBaseURL (getAIConfig env) = Some "http://localhost:8080/v1"
  /\ model (getAIConfig env) = Some "qwen2.5"
  /\ apiKey (getAIConfig env) = Some "sk-deep".
Proof.
  intros env.
  destruct (getAIConfig_explicit_settings_win env) as (Hurl & Hmodel & Hkey).
  split; [|split].
  - by apply Hurl.
  - by apply Hmodel.
  - by apply (Hkey deepseekPreset).
Defined.

(** X18. Without a credential under the key of the chosen preset -- the
    variable unset or empty -- the credential is the one under
    [OPENAI_API_KEY], so one generic key serves every provider. *)
Theorem getAIConfig_generic_credential (env : gmap string string) (p : Preset) :
  choosePreset (provider (getAIConfig env)) = Some p ->
  Js.truthy (env !! envKey p) = false ->
  apiKey (getAIConfig env) = env !! "OPENAI_API_KEY".
Proof.
  intros Hp Hk. rewrite (getAIConfig_credential env p Hp). unfold Js.or. by rewrite Hk.
Qed.

Lemma getAIConfig_generic_credential_sample :
  let env : gmap string string :=
    list_to_map [("AI_PROVIDER", "deepseek"); ("DEEPSEEK_API_KEY", "");
                 ("OPENAI_API_KEY", "sk-open")] in
  apiKey (getAIConfig env) = env !! "OPENAI_API_KEY".
Proof.
  intros env. apply (getAIConfig_generic_credential env deepseekPreset); reflexivity.
Defined.

(** X19. A provider name that is neither a preset nor a member that every
    object inherits is served like [openai]: the credential, the base URL
    and the model are the ones that [AI_PROVIDER=openai] gives. *)
Theorem getAIConfig_unknown_provider_like_openai (env : gmap string string) (name : string) :
  name <> "" ->
  AI_PROVIDERS !! Js.toLowerCase name = None ->
  existsb (String.eqb (Js.toLowerCase name)) objectPrototypeKeys = false ->
  let unknown := getAIConfig (<["AI_PROVIDER" := name]> env) in
  let openai := getAIConfig (<["AI_PROVIDER" := "openai"]> env) in
  provider unknown = Js.toLowerCase name
  /\ apiKey unknown = apiKey openai
  /\ cfgBaseURL unknown = cfgBaseURL openai
  /\ model unknown = model openai.
Proof.
  intros Hne Hown Hproto unknown openai. subst unknown openai.
  unfold getAIConfig. rewrite !lookup_insert_eq.
  assert (Js.or (Some name) (Some "openai") = Some name) as ->.
  { apply or_first; [reflexivity|exact Hne]. }
  change (Js.or (Some "openai") (Some "openai")) with (Some "openai").
  cbn [default from_option id provider apiKey cfgBaseURL model]. unfold id.
  rewrite (choosePreset_unknown _ Hown Hproto).
  change (choosePreset (Js.toLowerCase "openai")) with (Some openaiPreset).
  rewrite !(lookup_insert_ne _ "AI_PROVIDER") by done.
  unfold envAt. cbn [fmap option_fmap option_map default from_option id envKey openaiPreset].
  by rewrite !(lookup_insert_ne _ "AI_PROVIDER") by done.
Qed.

Lemma getAIConfig_unknown_provider_sample :
  let unknown := getAIConfig (<["AI_PROVIDER" := "Mistral"]> ∅) in
  let openai := getAIConfig (<["AI_PROVIDER" := "openai"]> ∅) in
  provider unknown = Js.toLowerCase "Mistral"
  /\ apiKey unknown = apiKey openai
  /\ cfgBaseURL unknown = cfgBaseURL openai
  /\ model unknown = model openai.
Proof.
  apply (getAIConfig_unknown_provider_like_openai ∅ "Mistral");
    [discriminate | reflexivity | reflexivity].
Defined.

(** ** The way to the verdict *)

Lemma events_bind_Forall {A B : Type} (P : Event -> Prop) (m : M A) (f : A -> M B) :
  Forall P (events m) -> (forall a, Forall P (events (f a))) ->
  Forall P (events (m ≫= f)).
Proof.
  intros Hm Hf. unfold mbind, M_bind.
  destruct (outcome m) as [a| | |]; cbn [events]; [|done..].
  apply Forall_app. split; [done|apply Hf].
Qed.

Lemma events_tryCatch_Forall {A : Type} (P : Event -> Prop) (m : M A) (h : Thrown -> M A) :
  Forall P (events m) -> (forall t, Forall P (events (h t))) ->
  Forall P (events (tryCatch m h)).
Proof.
  intros Hm Hh. unfold tryCatch.
  destruct (outcome m) as [a|t| |]; cbn [events]; [done| |done..].
  apply Forall_app. split; [done|apply Hh].
Qed.

Lemma events_retryLoop_Forall {A : Type} (P : Event -> Prop) (delay : Z) (fn : nat -> M A)
      (retries : Z) (remaining : nat) (attempt : Z) (lastError : Thrown) :
  (forall n, Forall P (events (fn n))) -> (forall ms, P (Sleep ms)) ->
  Forall P (events (retryLoop delay fn retries remaining attempt lastError)).
Proof.
  intros Hfn Hsleep. revert attempt lastError.
  induction remaining as [|k IH]; intros attempt lastError; [constructor|].
  cbn [retryLoop]. apply events_tryCatch_Forall; [apply Hfn|].
  intros [|e]; [constructor|].
  destruct (statusIs e 401 || statusIs e 403); [constructor|].
  destruct (statusIs e 429).
  - apply events_bind_Forall; [by repeat constructor|]. intros _. apply IH.
  - apply events_bind_Forall; [|intros _; apply IH].
    destruct (attempt <? retries)%Z; by repeat constructor.
Qed.

Lemma events_bind_prefix {A B : Type} (m : M A) (f : A -> M B) :
  exists rest, events (m ≫= f) = events m ++ rest.
Proof.
  unfold mbind, M_bind.
  destruct (outcome m) as [a| | |]; cbn [events];
    [by eexists|exists []; by rewrite app_nil_r..].
Qed.

Lemma events_tryCatch_prefix {A : Type} (m : M A) (h : Thrown -> M A) :
  exists rest, events (tryCatch m h) = events m ++ rest.
Proof.
  unfold tryCatch.
  destruct (outcome m) as [a|t| |]; cbn [events];
    [exists []; by rewrite app_nil_r|by eexists|exists []; by rewrite app_nil_r..].
Qed.

Lemma runAIReview_first_event (w : World) :
  exists rest, events (runAIReview w) = GitDiffCached :: rest.
Proof.
  unfold runAIReview.
  match goal with
  | |- context [events (tryCatch ?m onError)] =>
      destruct (events_tryCatch_prefix m onError) as [r1 ->]
  end.
  match goal with
  | |- context [events (fetchVerdict w ≫= ?k)] =>
      destruct (events_bind_prefix (fetchVerdict w) k) as [r2 ->]
  end.
  unfold fetchVerdict.
  match goal with
  | |- context [events (emit GitDiffCached ≫= ?k)] =>
      destruct (events_bind_prefix (emit GitDiffCached) k) as [r3 ->]
  end.
  by eexists.
Qed.

(** X20. The script asks git for the staged diff exactly when the commit
    source is not one of the skipped ones and a credential is configured.
    In every other run it only prints and ends with code 0. *)
Theorem main_reads_staged_diff_iff (w : World) :
  (In GitDiffCached (events (main w))
   <-> gateSkips (commitSource w) = false
       /\ Js.truthy (apiKey (getAIConfig (env w))) = true)
  /\ (~ In GitDiffCached (events (main w)) ->
      statusOf (main w) = Exited 0 /\ forallb isConsole (events (main w)) = true).
Proof.
  destruct (gateSkips (commitSource w)) eqn:Hg.
  { unfold main. rewrite Hg. cbn. split; [split|done].
    - by intros [|[]].
    - by intros []. }
  destruct (Js.truthy (apiKey (getAIConfig (env w)))) eqn:Hk.
  - rewrite (main_reviews w Hg Hk).
    destruct (runAIReview_first_event w) as [rest ->].
    split; [split; [done|intros _; by left]|].
    intros Hnot. destruct Hnot. by left.
  - unfold main. rewrite Hg, Hk. cbn. split; [split|done].
    + intros H. repeat (destruct H as [H|H]; [discriminate H|]). destruct H.
    + by intros [].
Qed.

Lemma remoteCalls_bind {A B : Type} (m : M A) (f : A -> M B) :
  remoteCalls (events (m ≫= f))
  = (remoteCalls (events m)
     + match outcome m with Next a => remoteCalls (events (f a)) | _ => 0 end)%nat.
Proof.
  unfold mbind, M_bind.
  destruct (outcome m); cbn [events]; [apply remoteCalls_app|lia..].
Qed.

Lemma remoteCalls_tryCatch {A : Type} (m : M A) (h : Thrown -> M A) :
  remoteCalls (events (tryCatch m h))
  = (remoteCalls (events m)
     + match outcome m with Throw t => remoteCalls (events (h t)) | _ => 0 end)%nat.
Proof.
  unfold tryCatch.
  destruct (outcome m); cbn [events]; [lia|apply remoteCalls_app|lia..].
Qed.

Lemma remoteCalls_handleResult (w : World) (result : Verdict) :
  remoteCalls (events (handleResult w result)) = 0%nat.
Proof.
  unfold handleResult, writeFileSync.
  by destruct (is_passed result), (commitMsgFile w), (writeFailure w),
       (nonBlank (reason result)).
Qed.

Lemma remoteCalls_onError (t : Thrown) : remoteCalls (events (onError t)) = 0%nat.
Proof.
  destruct t as [|e]; [reflexivity|]. unfold onError.
  by destruct (bool_decide (err_code e = Some "ECONNREFUSED")
               || bool_decide (err_code e = Some "ETIMEDOUT")),
       (statusIs e 401), (statusIs e 429).
Qed.

Lemma remoteCalls_runAIReview (w : World) :
  remoteCalls (events (runAIReview w)) = remoteCalls (events (fetchVerdict w)).
Proof.
  unfold runAIReview. rewrite remoteCalls_tryCatch, remoteCalls_bind, outcome_bind.
  destruct (outcome (fetchVerdict w)) as [result|t| |].
  - rewrite remoteCalls_handleResult.
    destruct (outcome (handleResult w result)); rewrite ?remoteCalls_onError; lia.
  - rewrite remoteCalls_onError. lia.
  - lia.
  - lia.
Qed.

Lemma remoteCalls_main (w : World) :
  (remoteCalls (events (main w)) <= remoteCalls (events (fetchVerdict w)))%nat.
Proof.
  unfold main.
  destruct (gateSkips (commitSource w)); [cbn; lia|].
  destruct (Js.truthy (apiKey (getAIConfig (env w)))); [|cbn; lia].
  cbn [negb]. by rewrite remoteCalls_runAIReview.
Qed.

(** X21. The remote service is never called for nothing.  A run that calls
    it has passed the gate with a credential, has a staged diff that is not
    blank and is not blank after the filter either, and its build check has
    passed or is switched off. *)
Theorem remote_call_needs_reviewable_diff (w : World) :
  (0 < remoteCalls (events (main w)))%nat ->
  gateSkips (commitSource w) = false
  /\ Js.truthy (apiKey (getAIConfig (env w))) = true
  /\ exists diff kept,
       stagedDiff w = inr diff /\ Js.trim diff <> ""
       /\ filterDiff diff (loadReviewIgnore w) = Val kept /\ Js.trim kept <> ""
       /\ (skipBuild (CONFIG (env w)) = true \/ buildPasses w = true).
Proof.
  intros Hcall.
  destruct (gateSkips (commitSource w)) eqn:Hg.
  { unfold main in Hcall. rewrite Hg in Hcall. cbn in Hcall. lia. }
  destruct (Js.truthy (apiKey (getAIConfig (env w)))) eqn:Hk.
  2: { unfold main in Hcall. rewrite Hg, Hk in Hcall. cbn in Hcall. lia. }
  split; [done|split; [done|]].
  pose proof (remoteCalls_main w) as Hle.
  assert (0 < remoteCalls (events (fetchVerdict w)))%nat as H by lia.
  clear Hcall Hle. unfold fetchVerdict in H.
  rewrite remoteCalls_bind in H. cbn [emit outcome events] in H.
  rewrite remoteCalls_bind in H.
  destruct (stagedDiff w) as [e|diff]; [cbn in H; lia|].
  exists diff. cbn [mret M_ret outcome events] in H.
  rewrite remoteCalls_bind in H.
  destruct (String.eqb_spec (Js.trim diff) "") as [Hblank|Hblank]; [cbn in H; lia|].
  cbn [mret M_ret outcome events] in H.
  rewrite remoteCalls_bind in H.
  destruct (filterDiff diff (loadReviewIgnore w)) as [kept| |]; [|cbn in H; lia..].
  exists kept. cbn [liftRes outcome events] in H.
  rewrite remoteCalls_bind in H.
  destruct (String.eqb_spec (Js.trim kept) "") as [Hnone|Hnone]; [cbn in H; lia|].
  cbn [mret M_ret outcome events] in H.
  rewrite remoteCalls_bind in H.
  repeat split; try done.
  destruct (skipBuild (CONFIG (env w))); [by left|].
  destruct (buildPasses w); [by right|]. cbn in H. lia.
Qed.

Lemma remote_call_needs_reviewable_diff_sample :
  gateSkips (commitSource rejectedWorld) = false
  /\ Js.truthy (apiKey (getAIConfig (env rejectedWorld))) = true
  /\ exists diff kept,
       stagedDiff rejectedWorld = inr diff /\ Js.trim diff <> ""
       /\ filterDiff diff (loadReviewIgnore rejectedWorld) = Val kept /\ Js.trim kept <> ""
       /\ (skipBuild (CONFIG (env rejectedWorld)) = true \/ buildPasses rejectedWorld = true).
Proof.
  apply (remote_call_needs_reviewable_diff rejectedWorld). vm_compute. lia.
Defined.

Lemma bind_ret_l {A B : Type} (a : A) (k : A -> M B) : (mret a ≫= k) = k a.
Proof. apply M_eta. Qed.

(** X22. With nothing to review the commit goes through untouched: when the
    staged diff is blank, or the filter leaves nothing but blanks of it, the
    run reads the staged diff, prints one line and ends with code 0, with no
    build, no remote call and no write. *)
Theorem main_nothing_to_review (w : World) (diff : string) :
  gateSkips (commitSource w) = false ->
  Js.truthy (apiKey (getAIConfig (env w))) = true ->
  stagedDiff w = inr diff ->
  Js.trim diff = ""
  \/ (exists kept, filterDiff diff (loadReviewIgnore w) = Val kept /\ Js.trim kept = "") ->
  exists m, (m = MsgNothingStaged \/ m = MsgAllIgnored)
            /\ main w = Run [GitDiffCached; Console m] (Exit 0).
Proof.
  intros Hg Hk Hd Hnone. rewrite (main_reviews w Hg Hk).
  unfold runAIReview, fetchVerdict. rewrite Hd, emit_then, bind_ret_l.
  destruct (String.eqb (Js.trim diff) "") eqn:Hblank.
  - exists MsgNothingStaged. split; [by left|reflexivity].
  - destruct Hnone as [Hnone|(kept & Hf & Hkept)].
    { apply String.eqb_neq in Hblank. done. }
    exists MsgAllIgnored. split; [by right|].
    rewrite bind_ret_l, Hf. change (liftRes (Val kept)) with (mret (M := M) kept).
    rewrite bind_ret_l, Hkept. reflexivity.
Qed.

Lemma main_nothing_to_review_samples :
  (exists m, (m = MsgNothingStaged \/ m = MsgAllIgnored)
             /\ main blankDiffWorld = Run [GitDiffCached; Console m] (Exit 0))
  /\ (exists m, (m = MsgNothingStaged \/ m = MsgAllIgnored)
                /\ main scriptsIgnoredWorld = Run [GitDiffCached; Console m] (Exit 0)).
Proof.
  split.
  - apply (main_nothing_to_review blankDiffWorld (String Js.LF ""));
      [reflexivity | vm_compute; reflexivity | reflexivity | left; reflexivity].
  - apply (main_nothing_to_review scriptsIgnoredWorld distDiff);
      [reflexivity | vm_compute; reflexivity | reflexivity |].
    right. exists "". split; vm_compute; reflexivity.
Defined.

(** X23. A failing build check blocks the commit before anything is sent:
    when there is something to review and the build command fails, the run
    prints the two lines of the failure and ends with code 1, with no remote
    call and no write. *)
Theorem main_build_failure (w : World) (diff kept : string) :
  gateSkips (commitSource w) = false ->
  Js.truthy (apiKey (getAIConfig (env w))) = true ->
  stagedDiff w = inr diff -> Js.trim diff <> "" ->
  filterDiff diff (loadReviewIgnore w) = Val kept -> Js.trim kept <> "" ->
  skipBuild (CONFIG (env w)) = false -> buildPasses w = false ->
  main w = Run [GitDiffCached;
                Console (MsgBuildStart (buildCommand (CONFIG (env w))));
                Build (buildCommand (CONFIG (env w)));
                Console MsgBuildFailed; Console MsgNoVerifyHint] (Exit 1).
Proof.
  intros Hg Hk Hd Hblank Hf Hkept Hskip Hbuild. rewrite (main_reviews w Hg Hk).
  apply String.eqb_neq in Hblank, Hkept.
  unfold runAIReview, fetchVerdict.
  rewrite Hd, emit_then, bind_ret_l, Hblank, bind_ret_l, Hf.
  change (liftRes (Val kept)) with (mret (M := M) kept).
  rewrite bind_ret_l, Hkept, bind_ret_l, Hskip, Hbuild. reflexivity.
Qed.

Lemma main_build_failure_sample :
  main brokenBuildWorld
  = Run [GitDiffCached;
         Console (MsgBuildStart (buildCommand (CONFIG (env brokenBuildWorld))));
         Build (buildCommand (CONFIG (env brokenBuildWorld)));
         Console MsgBuildFailed; Console MsgNoVerifyHint] (Exit 1).
Proof.
  apply (main_build_failure brokenBuildWorld distDiff distDiff);
    [reflexivity | vm_compute; reflexivity | reflexivity | vm_compute; discriminate
    | reflexivity | vm_compute; discriminate | vm_compute; reflexivity | reflexivity].
Defined.

(** ** What is sent, how often, and what is written *)

Lemma substring_length_le (n m : nat) (s : string) :
  (String.length (substring n m s) <= m)%nat.
Proof.
  revert n m. induction s as [|c r IH]; intros n m.
  - destruct n, m; cbn; lia.
  - destruct n as [|n]; [destruct m as [|m]|]; cbn [substring String.length].
    + lia.
    + specialize (IH 0%nat m). lia.
    + apply IH.
Qed.

Lemma slice_front_length (s : string) (limit : Z) :
  (0 <= limit)%Z -> (Z.of_nat (String.length (Js.slice s 0 (Some limit))) <= limit)%Z.
Proof.
  intros Hlimit. unfold Js.slice, Js.sliceIndex.
  pose proof (substring_length_le
                (Z.to_nat (if (0 <? 0)%Z
                           then Z.max (Z.of_nat (String.length s) + 0) 0
                           else Z.min 0 (Z.of_nat (String.length s))))
                (Z.to_nat ((if (limit <? 0)%Z
                            then Z.max (Z.of_nat (String.length s) + limit) 0
                            else Z.min limit (Z.of_nat (String.length s)))
                           - (if (0 <? 0)%Z
                              then Z.max (Z.of_nat (String.length s) + 0) 0
                              else Z.min 0 (Z.of_nat (String.length s)))))
                s) as Hlen.
  change (0 <? 0)%Z with false in *. cbn iota in *.
  destruct (Z.ltb_spec limit 0); lia.
Qed.

Lemma withinLimit_handleResult (limit : Z) (w : World) (result : Verdict) :
  Forall (withinLimit limit) (events (handleResult w result)).
Proof.
  unfold handleResult, writeFileSync.
  destruct (is_passed result), (commitMsgFile w), (writeFailure w),
    (nonBlank (reason result)); by repeat constructor.
Qed.

Lemma withinLimit_onError (limit : Z) (t : Thrown) :
  Forall (withinLimit limit) (events (onError t)).
Proof.
  destruct t as [|e]; [constructor|]. unfold onError.
  destruct (bool_decide (err_code e = Some "ECONNREFUSED")
            || bool_decide (err_code e = Some "ETIMEDOUT")),
    (statusIs e 401), (statusIs e 429); by repeat constructor.
Qed.

Lemma withinLimit_fetchVerdict (w : World) :
  (0 <= maxDiffSize (CONFIG (env w)))%Z ->
  Forall (withinLimit (maxDiffSize (CONFIG (env w)))) (events (fetchVerdict w)).
Proof.
  intros Hlimit. unfold fetchVerdict.
  apply events_bind_Forall; [by repeat constructor|]. intros _.
  apply events_bind_Forall; [destruct (stagedDiff w); by repeat constructor|].
  intros diff.
  apply events_bind_Forall.
  { destruct (String.eqb (Js.trim diff) ""); by repeat constructor. }
  intros _.
  apply events_bind_Forall.
  { destruct (filterDiff diff (loadReviewIgnore w)); by repeat constructor. }
  intros kept.
  apply events_bind_Forall.
  { destruct (String.eqb (Js.trim kept) ""); by repeat constructor. }
  intros _.
  apply events_bind_Forall.
  { destruct (skipBuild (CONFIG (env w))); [constructor|].
    destruct (buildPasses w); by repeat constructor. }
  intros _.
  apply events_bind_Forall.
  { destruct (_ <? _)%Z; by repeat constructor. }
  intros _.
  apply events_bind_Forall; [by repeat constructor|]. intros _.
  apply events_bind_Forall.
  - unfold callWithRetry. apply events_retryLoop_Forall; [|done].
    intros n. unfold createCompletion.
    destruct (api w n); (constructor; [by apply slice_front_length|constructor]).
  - intros [result|e]; constructor.
Qed.

(** X24. The limit on the diff size holds for what is sent: with a limit
    that is not negative, the text of every remote call of a run has at most
    [AI_REVIEW_MAX_DIFF_SIZE] code units. *)
Theorem main_payload_within_limit (w : World) :
  (0 <= maxDiffSize (CONFIG (env w)))%Z ->
  Forall (withinLimit (maxDiffSize (CONFIG (env w)))) (events (main w)).
Proof.
  intros Hlimit. unfold main.
  destruct (gateSkips (commitSource w)); [by repeat constructor|].
  destruct (Js.truthy (apiKey (getAIConfig (env w)))); [|by repeat constructor].
  cbn [negb]. unfold runAIReview.
  apply events_tryCatch_Forall; [|apply withinLimit_onError].
  apply events_bind_Forall; [by apply withinLimit_fetchVerdict|].
  apply withinLimit_handleResult.
Qed.

Lemma main_payload_cut_at_forty :
  In (RemoteCall (Some "gpt-4o-mini") "diff --git a/dist/bundle.js b/dist/bundl")
     (events (main smallLimitWorld))
  /\ Forall (withinLimit (maxDiffSize (CONFIG (env smallLimitWorld))))
            (events (main smallLimitWorld)).
Proof.
  split; [vm_compute; tauto|].
  apply (main_payload_within_limit smallLimitWorld). vm_compute. discriminate.
Defined.
Lemma remoteCalls_bind_quiet {A B : Type} (m : M A) (f : A -> M B) (n : nat) :
  remoteCalls (events m) = 0%nat -> (forall a, (remoteCalls (events (f a)) <= n)%nat) ->
  (remoteCalls (events (m ≫= f)) <= n)%nat.
Proof.
  intros Hm Hf. rewrite remoteCalls_bind, Hm.
  destruct (outcome m) as [a| | |]; [apply Hf|lia..].
Qed.

Lemma remoteCalls_fetchVerdict (w : World) :
  (remoteCalls (events (fetchVerdict w)) <= Z.to_nat (maxRetries (CONFIG (env w))))%nat.
Proof.
  unfold fetchVerdict.
  apply remoteCalls_bind_quiet; [reflexivity|]. intros _.
  apply remoteCalls_bind_quiet; [by destruct (stagedDiff w)|]. intros diff.
  apply remoteCalls_bind_quiet; [by destruct (String.eqb (Js.trim diff) "")|]. intros _.
  apply remoteCalls_bind_quiet; [by destruct (filterDiff diff (loadReviewIgnore w))|].
  intros kept.
  apply remoteCalls_bind_quiet; [by destruct (String.eqb (Js.trim kept) "")|]. intros _.
  apply remoteCalls_bind_quiet.
  { destruct (skipBuild (CONFIG (env w))); [reflexivity|]. by destruct (buildPasses w). }
  intros _.
  apply remoteCalls_bind_quiet; [by destruct (_ <? _)%Z|]. intros _.
  apply remoteCalls_bind_quiet; [reflexivity|]. intros _.
  rewrite remoteCalls_bind.
  match goal with
  | |- (?calls + ?tail <= _)%nat => assert (tail = 0%nat) as ->
  end.
  { destruct (outcome _) as [[result|e]| | |]; reflexivity. }
  rewrite Nat.add_0_r. unfold callWithRetry. apply retryLoop_calls_bounded.
Qed.

(** X25. Whatever the service does, a run sends it at most
    [AI_REVIEW_MAX_RETRIES] requests. *)
Theorem main_remote_calls_bounded (w : World) :
  (remoteCalls (events (main w)) <= Z.to_nat (maxRetries (CONFIG (env w))))%nat.
Proof. etrans; [apply remoteCalls_main|apply remoteCalls_fetchVerdict]. Qed.

(** X26. The commit message file is written only for a verdict that passes,
    once, and with the message composed from this verdict; every other run
    leaves the file alone. *)
Theorem main_writes_only_approved_message (w : World) :
  written (events (main w)) = []
  \/ exists result path,
       outcome (fetchVerdict w) = Next result /\ is_passed result = true
       /\ commitMsgFile w = Some path
       /\ written (events (main w)) = [WriteFile (Some path) (composeMessage result)].
Proof.
  destruct (gateSkips (commitSource w)) eqn:Hg.
  { left. unfold main. by rewrite Hg. }
  destruct (Js.truthy (apiKey (getAIConfig (env w)))) eqn:Hk.
  2: { left. unfold main. by rewrite Hg, Hk. }
  rewrite (main_reviews w Hg Hk). unfold runAIReview.
  pose proof (written_fetchVerdict w) as Hquiet.
  destruct (outcome (fetchVerdict w)) as [result|t|c|] eqn:Hout.
  - rewrite (mbind_next _ _ _ Hout).
    destruct (is_passed result) eqn:Hp.
    + destruct (commitMsgFile w) as [path|] eqn:Hf;
        [destruct (writeFailure w) as [e|] eqn:Hw|].
      * left. destruct (handleResult_write_throws w result Hp) as [e' ->];
          [right; congruence|].
        unfold tryCatch. cbn [outcome events].
        destruct (onError_error_object e') as (_ & Hw' & _).
        by rewrite !written_app, Hquiet, Hw'.
      * right. exists result, path. repeat split; try done.
        rewrite (handleResult_passed w result path Hp Hf Hw).
        unfold tryCatch. cbn [outcome events]. rewrite written_app, Hquiet.
        by destruct (nonBlank (reason result)).
      * left. destruct (handleResult_write_throws w result Hp) as [e' ->]; [by left|].
        unfold tryCatch. cbn [outcome events].
        destruct (onError_error_object e') as (_ & Hw' & _).
        by rewrite !written_app, Hquiet, Hw'.
    + left. rewrite (handleResult_failed w result Hp).
      unfold tryCatch. cbn [outcome events]. by rewrite written_app, Hquiet.
  - left. rewrite (mbind_throw _ _ _ Hout). unfold tryCatch. cbn [outcome events].
    rewrite written_app, Hquiet. destruct t as [|e]; [reflexivity|].
    by destruct (onError_error_object e) as (_ & -> & _).
  - left. by rewrite (mbind_exit _ _ _ Hout).
  - left. by rewrite (mbind_unmodelled _ _ Hout).
Qed.



(** ** The ignore file and the commit message *)

(** X28. The patterns read from the ignore file are clean: none is empty,
    none is a comment, and none has white space around it. *)
Theorem loadReviewIgnore_patterns_are_clean (w : World) :
  Forall (fun pattern => pattern <> "" /\ Js.startsWith pattern "#" = false
                         /\ Js.trim pattern = pattern)
         (loadReviewIgnore w).
Proof.
  assert (forall content,
            Forall (fun pattern => pattern <> "" /\ Js.startsWith pattern "#" = false
                                   /\ Js.trim pattern = pattern)
                   (ignoreLines content)) as Hlines.
  { intros content. apply List.Forall_forall. intros pattern Hin.
    unfold ignoreLines in Hin. apply List.filter_In in Hin as [Hin Hkeep].
    apply andb_true_iff in Hkeep as [Hne Hhash].
    apply negb_true_iff in Hne, Hhash. apply String.eqb_neq in Hne.
    apply List.in_map_iff in Hin as (l & <- & _).
    repeat split; [done..|apply trim_idempotent]. }
  unfold loadReviewIgnore.
  destruct (rootIgnoreFile w), (cwdIgnoreFile w); try apply Hlines. constructor.
Qed.

Lemma hasLF_append (a b : string) : hasLF (a +:+ b) = hasLF a || hasLF b.
Proof.
  induction a as [|c a IH]; [reflexivity|].
  change (Ascii.eqb c Js.LF || hasLF (a +:+ b) = Ascii.eqb c Js.LF || hasLF a || hasLF b).
  by rewrite IH, orb_assoc.
Qed.

Lemma commentLines_lines (text : string) :
  Js.splitLines (commentLines text) = map (fun l => "# " +:+ l) (Js.splitLines text).
Proof.
  unfold commentLines. destruct (splitLines_lines text) as [Hne Hall].
  apply splitLines_joinLines.
  - by destruct (Js.splitLines text).
  - apply Forall_map. eapply Forall_impl; [exact Hall|].
    intros l Hl. cbn beta. by rewrite hasLF_append, Hl.
Qed.

(** X29. The advice is appended as comment lines only.  When the reason of
    a passing verdict is not blank, what is written is the message of the
    verdict, an empty line, and a block each of whose lines begins with [#]:
    the banner, then every line of the reason behind ["# "]. *)
Theorem composeMessage_advice_is_commented (result : Verdict) :
  nonBlank (reason result) = true ->
  exists block,
    composeMessage result = message result +:+ String Js.LF (String Js.LF block)
    /\ Js.splitLines block
       = adviceBanner :: map (fun l => "# " +:+ l) (Js.splitLines (reason result))
    /\ Forall (fun l => Js.startsWith l "#" = true) (Js.splitLines block).
Proof.
  intros Hreason.
  exists (adviceBanner +:+ String Js.LF (commentLines (reason result))).
  assert (Js.splitLines (adviceBanner +:+ String Js.LF (commentLines (reason result)))
          = adviceBanner :: map (fun l => "# " +:+ l) (Js.splitLines (reason result)))
    as Hblock.
  { rewrite splitLines_app_LF by (vm_compute; reflexivity). by rewrite commentLines_lines. }
  split; [|split; [exact Hblock|]].
  - unfold composeMessage. by rewrite Hreason.
  - rewrite Hblock. constructor; [vm_compute; reflexivity|].
    apply Forall_map. by apply Forall_true.
Qed.

Lemma composeMessage_two_lines_of_advice :
  exists block,
    composeMessage advisedVerdict
    = message advisedVerdict +:+ String Js.LF (String Js.LF block)
    /\ Js.splitLines block
       = adviceBanner :: map (fun l => "# " +:+ l) (Js.splitLines (reason advisedVerdict))
    /\ Forall (fun l => Js.startsWith l "#" = true) (Js.splitLines block).
Proof. apply (composeMessage_advice_is_commented advisedVerdict). reflexivity. Defined.
